(** * Account validation controller (pkg/controller/validation)

    A shallow embedding of [account_validation_controller.go] and the
    properties of its decision logic: the organizational-unit ancestry walk,
    the pool membership check, the account mover and its dry-run gate, the
    owner-tag check and the mapping of classified errors to requeue
    decisions.

    Go code runs here in a small monad [Go]: a computation reads and updates
    the process state (the state of the AWS Organizations service behind the
    client, the two package-level feature gates, and a ghost log of the
    calls made through the client) and ends in a value, in a runtime panic,
    or without an answer when the recursion budget is used up.  Log
    statements have no effect on results and are left out, except that the
    arguments they dereference are still evaluated. *)

From stdpp Require Import base option list strings gmap fin_maps.
From Stdlib Require Import ZArith.

(** ** Go values *)

(** [error] values built by this package: [errors.New] and the pointer to an
    [AccountValidationError] wrapping another error. *)
Inductive ValidationError : Type :=
  | InvalidAccount
  | AccountMoveFailed
  | MissingTag
  | IncorrectOwnerTag.

Inductive error : Type :=
  | errorString (msg : string)
  | AccountValidationError (Type_ : ValidationError) (Err : error).

(** The type assertion of [err] to a pointer to [AccountValidationError]. *)
Definition asAccountValidationError (err : error) : option (ValidationError * error) :=
  match err with
  | AccountValidationError t e => Some (t, e)
  | errorString _ => None
  end.

Definition ValidationError_eqb (a b : ValidationError) : bool :=
  match a, b with
  | InvalidAccount, InvalidAccount
  | AccountMoveFailed, AccountMoveFailed
  | MissingTag, MissingTag
  | IncorrectOwnerTag, IncorrectOwnerTag => true
  | _, _ => false
  end.

(** Method [Error]: an [AccountValidationError] gives the message of the
    error it wraps; an [errors.New] value gives its own. *)
Fixpoint Error (err : error) : string :=
  match err with
  | errorString msg => msg
  | AccountValidationError _ e => Error e
  end.

(** [time.Duration] counts nanoseconds in an int64. *)
Definition Duration : Type := Z.
Definition Minute : Duration := (60 * 1000000000)%Z.

Definition controllerName : string := "accountvalidation".
Definition moveWaitTime : Duration := (5 * Minute)%Z.
Definition ownerKey : string := "owner".

(** ** The AWS Organizations API as the controller uses it

    Pointers of the SDK structures are options, [None] being nil; only the
    fields that the controller reads or writes are kept. *)
Record ListParentsInput : Type := { ChildId : option string }.
Record Parent : Type := { Id : option string }.
Record ListParentsOutput : Type := { Parents : list (option Parent) }.

Record MoveAccountInput : Type := {
  AccountId : option string;
  DestinationParentId : option string;
  SourceParentId : option string
}.

Record ListTagsForResourceInput : Type := { ResourceId : option string }.
Record Tag : Type := { Key : option string; Value : option string }.
Record ListTagsForResourceOutput : Type := { Tags : list (option Tag) }.

(** The calls that go through the client, with what they answered. *)
Inductive Call : Type :=
  | CallListParents (input : ListParentsInput)
      (output : option ListParentsOutput) (err : option error)
  | CallMoveAccount (input : MoveAccountInput) (err : option error)
  | CallListTagsForResource (input : ListTagsForResourceInput)
      (output : option ListTagsForResourceOutput) (err : option error).

Definition isMoveAccountCall (c : Call) : bool :=
  match c with CallMoveAccount _ _ => true | _ => false end.

Definition isListTagsCall (c : Call) : bool :=
  match c with CallListTagsForResource _ _ _ => true | _ => false end.

(** A ListParents answer without error that lists more than one parent. *)
Definition multiParentAnswer (c : Call) : bool :=
  match c with
  | CallListParents _ (Some out) None => (1 <? length (Parents out))%nat
  | _ => false
  end.

Definition isListParentsCall (c : Call) : bool :=
  match c with CallListParents _ _ _ => true | _ => false end.

(** The identifier a parent query asked about. *)
Definition queriedChild (c : Call) : option string :=
  match c with
  | CallListParents input _ _ => ChildId input
  | _ => None
  end.

(** The parent identifier of a parent query answered, without error, by
    exactly one parent. *)
Definition answeredParent (c : Call) : option string :=
  match c with
  | CallListParents _ (Some out) None =>
    match Parents out with
    | [Some parent] => Id parent
    | _ => None
    end
  | _ => None
  end.

(** The error a call was answered with. *)
Definition callError (c : Call) : option error :=
  match c with
  | CallListParents _ _ err => err
  | CallMoveAccount _ err => err
  | CallListTagsForResource _ _ err => err
  end.

(** ** Kubernetes side *)

(** Modelled from the spec: the Account resource of pkg/apis/aws/v1alpha1
    with its methods [IsBYOC] and [IsOwnedByAccountPool], declared outside
    this package.  The spec gives an account a cloud account identifier, a
    flag for bring-your-own-cloud accounts and a flag for accounts owned by
    the shared account pool; the two methods read the two flags. *)
Record AccountSpec : Type := { AwsAccountID : string; BYOC : bool }.
Record Account : Type := { Spec : AccountSpec; OwnedByAccountPool : bool }.

Definition IsBYOC (a : Account) : bool := BYOC (Spec a).
Definition IsOwnedByAccountPool (a : Account) : bool := OwnedByAccountPool a.

Record NamespacedName : Type := { Namespace : string; Name : string }.
Record ConfigMap : Type := { Data : gmap string string }.

(** Indexing a Go map gives the zero value for a missing key. *)
Definition mapIndex (m : gmap string string) (k : string) : string :=
  default "" (m !! k).

(** Modelled from the spec: the helpers [DoNotRequeue] and [RequeueAfter] of
    pkg/controller/utils, declared outside this package.  By the outbound
    contract of the spec a reconciliation ends in no-requeue or in
    requeue-after a duration; the two constructors stand for what the two
    helpers return. *)
Inductive Result : Type :=
  | DoNotRequeue
  | RequeueAfter (d : Duration).

(** [strconv.ParseBool] of the Go standard library; [None] is its syntax
    error. *)
Definition ParseBool (str : string) : option bool :=
  if (str =? "1")%string || (str =? "t")%string || (str =? "T")%string
     || (str =? "true")%string || (str =? "TRUE")%string || (str =? "True")%string
  then Some true
  else if (str =? "0")%string || (str =? "f")%string || (str =? "F")%string
     || (str =? "false")%string || (str =? "FALSE")%string || (str =? "False")%string
  then Some false
  else None.

(** ** Running Go code *)

Inductive panic : Type :=
  | NilDereference
  | IndexOutOfRange.

Inductive outcome (A : Type) : Type :=
  | Return (a : A)
  | Panics (p : panic)
  | OutOfFuel.
Arguments Return {A} a.
Arguments Panics {A} p.
Arguments OutOfFuel {A}.

Section Controller.

Context {W : Type}.

(** [awsclient.Client], restricted to the three methods in use.  [W] is the
    state of the service (or of a mock) that the calls read and change.
    [MoveAccount_] is the method [MoveAccount]; the function of that name in
    this package comes below. *)
Record Client : Type := {
  ListParents : ListParentsInput → W → (option ListParentsOutput * option error) * W;
  MoveAccount_ : MoveAccountInput → W → option error * W;
  ListTagsForResource :
    ListTagsForResourceInput → W → (option ListTagsForResourceOutput * option error) * W
}.

(** Process state: the service, the package variables [accountMoveEnabled]
    and [accountTagEnabled], and the log of client calls. *)
Record state : Type := {
  aws : W;
  accountMoveEnabled : bool;
  accountTagEnabled : bool;
  calls : list Call
}.

Definition Go (A : Type) : Type := state → outcome A * state.

#[export] Instance Go_ret : MRet Go := λ A a s, (Return a, s).

#[export] Instance Go_bind : MBind Go := λ A B f m s,
  match m s with
  | (Return a, s') => f a s'
  | (Panics p, s') => (Panics p, s')
  | (OutOfFuel, s') => (OutOfFuel, s')
  end.

Definition raise {A : Type} (p : panic) : Go A := λ s, (Panics p, s).
Definition outOfFuel {A : Type} : Go A := λ s, (OutOfFuel, s).

(** [*p] *)
Definition deref {A : Type} (p : option A) : Go A :=
  match p with
  | Some a => mret a
  | None => raise NilDereference
  end.

(** [l[i]] *)
Definition index {A : Type} (l : list A) (i : nat) : Go A :=
  match l !! i with
  | Some a => mret a
  | None => raise IndexOutOfRange
  end.

Definition getAccountMoveEnabled : Go bool := λ s, (Return (accountMoveEnabled s), s).
Definition getAccountTagEnabled : Go bool := λ s, (Return (accountTagEnabled s), s).

Definition setAccountMoveEnabled (b : bool) : Go unit := λ s,
  (Return tt, {| aws := aws s; accountMoveEnabled := b;
                 accountTagEnabled := accountTagEnabled s; calls := calls s |}).

Definition setAccountTagEnabled (b : bool) : Go unit := λ s,
  (Return tt, {| aws := aws s; accountMoveEnabled := accountMoveEnabled s;
                 accountTagEnabled := b; calls := calls s |}).

(** The state after a client call: the service moved on and the call is
    logged. *)
Definition called (s : state) (w : W) (c : Call) : state :=
  {| aws := w; accountMoveEnabled := accountMoveEnabled s;
     accountTagEnabled := accountTagEnabled s; calls := calls s ++ [c] |}.

(** A call into the service: it answers and moves on, and the call is
    logged with its answer. *)
Definition perform {A : Type} (f : W → A * W) (log : A → Call) : Go A := λ s,
  let '(r, w) := f (aws s) in (Return r, called s w (log r)).

(** Method calls on a client value; the interface value may be nil. *)
Definition callListParents (client : option Client) (input : ListParentsInput)
  : Go (option ListParentsOutput * option error) :=
  c ← deref client;
  perform (ListParents c input) (λ r, CallListParents input r.1 r.2).

Definition callMoveAccount (client : option Client) (input : MoveAccountInput)
  : Go (option error) :=
  c ← deref client;
  perform (MoveAccount_ c input) (λ r, CallMoveAccount input r).

Definition callListTagsForResource (client : option Client)
    (input : ListTagsForResourceInput)
  : Go (option ListTagsForResourceOutput * option error) :=
  c ← deref client;
  perform (ListTagsForResource c input) (λ r, CallListTagsForResource input r.1 r.2).

(** ** The controller *)

(** [ParentsTillPredicate]: the slice behind [parents] is passed in and
    handed back with the error.  The Go function recurses without a bound;
    [fuel] bounds the number of hops here. *)
Fixpoint ParentsTillPredicate (fuel : nat) (awsId : string) (client : option Client)
    (p : string → bool) (parents : list string) : Go (option error * list string) :=
  match fuel with
  | O => outOfFuel
  | S fuel' =>
    let listParentsInput := {| ChildId := Some awsId |} in
    '(listParentsOutput, err) ← callListParents client listParentsInput;
    match err with
    | Some e => mret (Some e, parents)
    | None =>
      out ← deref listParentsOutput;
      if (length (Parents out) =? 0)%nat then mret (None, parents)
      else if (1 <? length (Parents out))%nat then
        mret (Some (errorString ("More than 1 parents found for Id " +:+ awsId)), parents)
      else
        parent ← index (Parents out) 0;
        parent ← deref parent;
        id ← deref (Id parent);
        let parents := parents ++ [id] in
        if p id then mret (None, parents)
        else ParentsTillPredicate fuel' id client p parents
    end
  end.

(** [IsAccountInPoolOU] *)
Definition IsAccountInPoolOU (fuel : nat) (account : Account) (client : option Client)
    (isPoolOU : string → bool) : Go bool :=
  if (AwsAccountID (Spec account) =? "")%string then mret false
  else
    let parentList := [] in
    '(err, parentList) ←
      ParentsTillPredicate fuel (AwsAccountID (Spec account)) client isPoolOU parentList;
    match err with
    | Some _ => mret false
    | None => if (length parentList =? 1)%nat then mret true else mret false
    end.

(** [MoveAccount]; both log statements dereference [oldOu]. *)
Definition MoveAccount (awsAccountId : string) (client : option Client)
    (targetOU : string) (moveAccount : bool) : Go (option error) :=
  let listParentsInput := {| ChildId := Some awsAccountId |} in
  '(listParentsOutput, err) ← callListParents client listParentsInput;
  match err with
  | Some e => mret (Some e)
  | None =>
    out ← deref listParentsOutput;
    parent ← index (Parents out) 0;
    parent ← deref parent;
    let oldOu := Id parent in
    if moveAccount then
      _ ← deref oldOu;
      let moveAccountInput :=
        {| AccountId := Some awsAccountId;
           DestinationParentId := Some targetOU;
           SourceParentId := oldOu |} in
      err ← callMoveAccount client moveAccountInput;
      match err with
      | Some e => mret (Some e)
      | None => mret None
      end
    else
      _ ← deref oldOu;
      mret None
  end.

(** The loop of [ValidateAccountTags] over [resp.Tags], with the return
    that follows it. *)
Fixpoint scanTags (shardName : string) (tags : list (option Tag)) : Go (option error) :=
  match tags with
  | [] =>
    mret (Some (AccountValidationError MissingTag
                  (errorString "Account is not tagged with an owner")))
  | tag :: rest =>
    tag ← deref tag;
    key ← deref (Key tag);
    if (ownerKey =? key)%string then
      value ← deref (Value tag);
      if negb (shardName =? value)%string then
        mret (Some (AccountValidationError IncorrectOwnerTag
                      (errorString "Account is not tagged with the correct owner")))
      else mret None
    else scanTags shardName rest
  end.

(** [ValidateAccountTags] *)
Definition ValidateAccountTags (client : option Client) (accountId : option string)
    (shardName : string) (accountTagEnabled : bool) : Go (option error) :=
  let listTagsForResourceInput := {| ResourceId := accountId |} in
  '(resp, err) ← callListTagsForResource client listTagsForResourceInput;
  match err with
  | Some e => mret (Some e)
  | None =>
    resp ← deref resp;
    scanTags shardName (Tags resp)
  end.

(** Method [ValidateAccountOU] of [ValidateAccount]; the receiver is not used. *)
Definition ValidateAccountOU (fuel : nat) (awsClient : option Client) (account : Account)
    (poolOU : string) : Go (option error) :=
  if IsBYOC account then
    mret (Some (AccountValidationError InvalidAccount
                  (errorString "Account is a CCS account")))
  else if IsOwnedByAccountPool account then
    mret (Some (AccountValidationError InvalidAccount
                  (errorString "Account is in an account pool")))
  else
    inPool ← IsAccountInPoolOU fuel account awsClient (λ s, (s =? poolOU)%string);
    if (inPool : bool) then mret None
    else
      enabled ← getAccountMoveEnabled;
      err ← MoveAccount (AwsAccountID (Spec account)) awsClient poolOU enabled;
      match err with
      | Some e => mret (Some (AccountValidationError AccountMoveFailed e))
      | None => mret None
      end.

(** The collaborators held by the reconciler.  [Get] is the account fetch of
    the Kubernetes client and [GetOperatorConfigMap] the helper of
    pkg/controller/utils run on that client; [GetClient] is the result of the
    builder for the fixed arguments that [Reconcile] gives it. *)
Record ValidateAccount : Type := {
  Get : NamespacedName → Account + error;
  GetOperatorConfigMap : ConfigMap + error;
  GetClient : option Client * option error;
  shardName : string
}.

(** Lines 252-266 of [Reconcile]: the two feature gates are read from the
    config map. *)
Definition loadFeatureGates (cm : ConfigMap) : Go unit :=
  _ ← (match ParseBool (mapIndex (Data cm) "feature.validation_move_account") with
       | None => mret tt
       | Some enabled => setAccountMoveEnabled enabled
       end : Go unit);
  match ParseBool (mapIndex (Data cm) "feature.validation_tag_account") with
  | None => mret tt
  | Some enabled => setAccountTagEnabled enabled
  end.

(** Lines 268-300 of [Reconcile]: the checks and the requeue decision. *)
Definition runChecks (fuel : nat) (r : ValidateAccount) (account : Account)
    (cm : ConfigMap) : Go Result :=
  let '(awsClient, _) := GetClient r in
  err ← ValidateAccountOU fuel awsClient account (mapIndex (Data cm) "root");
  let continue : Go Result :=
    tagEnabled ← getAccountTagEnabled;
    err ← ValidateAccountTags awsClient (Some (AwsAccountID (Spec account)))
            (shardName r) tagEnabled;
    match err with
    | Some e =>
      match asAccountValidationError e with
      | Some (t, _) =>
        if ValidationError_eqb t MissingTag || ValidationError_eqb t IncorrectOwnerTag
        then mret DoNotRequeue
        else mret DoNotRequeue
      | None => mret DoNotRequeue
      end
    | None => mret DoNotRequeue
    end in
  match err with
  | Some e =>
    match asAccountValidationError e with
    | Some (t, _) =>
      if ValidationError_eqb t InvalidAccount then mret DoNotRequeue
      else if ValidationError_eqb t AccountMoveFailed then mret (RequeueAfter moveWaitTime)
      else continue
    | None => continue
    end
  | None => continue
  end.

(** Method [Reconcile] of [ValidateAccount] *)
Definition Reconcile (fuel : nat) (r : ValidateAccount) (request : NamespacedName)
  : Go Result :=
  match Get r request with
  | inr _ => mret DoNotRequeue
  | inl account =>
    match GetOperatorConfigMap r with
    | inr _ => mret (RequeueAfter (5 * Minute)%Z)
    | inl cm =>
      _ ← loadFeatureGates cm;
      runChecks fuel r account cm
    end
  end.

(** ** States of a run *)

(** The state after the parent query for [awsId]. *)
Definition afterListParents (c : Client) (awsId : string) (s : state) : state :=
  called s (ListParents c {| ChildId := Some awsId |} (aws s)).2
    (CallListParents {| ChildId := Some awsId |}
       (ListParents c {| ChildId := Some awsId |} (aws s)).1.1
       (ListParents c {| ChildId := Some awsId |} (aws s)).1.2).

(** [climbs c p a s below top s']: from the state [s] on, the parent query
    about [a], and then the one about each parent answered, is answered
    without error by a single parent that [p] rejects.  [below] lists these
    parents in order, [top] is the last of them ([a] itself when there is
    none), and [s'] is the state after these queries. *)
Inductive climbs (c : Client) (p : string → bool)
  : string → state → list string → string → state → Prop :=
  | climbs_here a s : climbs c p a s [] a s
  | climbs_up a s out parent id below top s' :
      (ListParents c {| ChildId := Some a |} (aws s)).1 = (Some out, None) →
      Parents out = [Some parent] →
      Id parent = Some id →
      p id = false →
      climbs c p id (afterListParents c a s) below top s' →
      climbs c p a s (id :: below) top s'.

(** The state after the reparent request of [MoveAccount]. *)
Definition afterMoveAccount (c : Client) (input : MoveAccountInput) (s : state) : state :=
  called s (MoveAccount_ c input (aws s)).2
    (CallMoveAccount input (MoveAccount_ c input (aws s)).1).

(** No tag query between two states. *)
Definition noTagQuery (s s' : state) : Prop :=
  List.filter isListTagsCall (calls s') = List.filter isListTagsCall (calls s).

(** The parent query about [awsId] made in state [s], as it is logged. *)
Definition parentQuery (c : Client) (awsId : string) (s : state) : Call :=
  CallListParents {| ChildId := Some awsId |}
    (ListParents c {| ChildId := Some awsId |} (aws s)).1.1
    (ListParents c {| ChildId := Some awsId |} (aws s)).1.2.

(** A computation that leaves both feature gates as they are. *)
Definition keepsGates {A : Type} (m : Go A) : Prop :=
  ∀ s, accountMoveEnabled (m s).2 = accountMoveEnabled s ∧
       accountTagEnabled (m s).2 = accountTagEnabled s.

(** A computation that makes no call of the kind [P]. *)
Definition makesNo {A : Type} (P : Call → bool) (m : Go A) : Prop :=
  ∀ s, List.filter P (calls (m s).2) = List.filter P (calls s).

(** A computation on which the tagging gate has no influence: started with
    another value of the gate, it ends in the same outcome and, the gate
    apart, in the same state. *)
Definition ignoresTagGate {A : Type} (m : Go A) : Prop :=
  ∀ b s, m (setAccountTagEnabled b s).2 = ((m s).1, (setAccountTagEnabled b (m s).2).2).

End Controller.

(** ** The tree service as an oracle, and the reference walk *)

(** The answer of the SDK that lists the given parent identifiers. *)
Definition parentsOutput (ids : list string) : ListParentsOutput :=
  {| Parents := (λ id, Some {| Id := Some id |}) <$> ids |}.

(** The rendering of a tag set by the SDK: one [Tag] per key and value. *)
Definition tagList (kvs : list (string * string)) : list (option Tag) :=
  (λ kv, Some {| Key := Some kv.1; Value := Some kv.2 |}) <$> kvs.

(** A client answers parent queries as the oracle [getParent] does, whatever
    happens to the state of the service. *)
Definition answersAs {W : Type} (c : Client (W:=W)) (getParent : string → list string) : Prop :=
  ∀ id w, ∃ w',
    ListParents c {| ChildId := Some id |} w = ((Some (parentsOutput (getParent id)), None), w').

Inductive WalkFault : Type :=
  | MoreThanOneParent (nodeId : string).

(** The descriptive error of the walker for a fault. *)
Definition faultError (f : WalkFault) : error :=
  match f with
  | MoreThanOneParent nodeId => errorString ("More than 1 parents found for Id " +:+ nodeId)
  end.

(** The reference recursion [walkAncestors], written after the words of the
    specification (section 4.1) over a parent oracle: zero parents end the
    walk with the accumulated path; one parent is appended, and the walk
    stops there when the predicate holds and goes on from it otherwise; more
    than one parent is a fault and ends the walk.  [None] when [fuel] hops
    do not suffice. *)
Fixpoint walkAncestors (fuel : nat) (getParent : string → list string)
    (nodeId : string) (stopPredicate : string → bool) (path : list string)
  : option (list string * option WalkFault) :=
  match fuel with
  | O => None
  | S fuel' =>
    match getParent nodeId with
    | [] => Some (path, None)
    | [p] =>
      if stopPredicate p then Some (path ++ [p], None)
      else walkAncestors fuel' getParent p stopPredicate (path ++ [p])
    | _ :: _ :: _ => Some (path, Some (MoreThanOneParent nodeId))
    end
  end.

(** [ancestry getParent a path top]: [path] lists the successive single
    parents from [a] upward and ends in [top] ([top] is [a] for the empty
    path). *)
Inductive ancestry (getParent : string → list string) : string → list string → string → Prop :=
  | ancestry_nil a : ancestry getParent a [] a
  | ancestry_cons a p path top :
      getParent a = [p] → ancestry getParent p path top →
      ancestry getParent a (p :: path) top.

(** The account sits [S (length between)] levels below the pool OU. *)
Definition levelsBelowPool (getParent : string → list string) (a poolOU : string)
    (between : list string) : Prop :=
  ancestry getParent a (between ++ [poolOU]) poolOU ∧ poolOU ∉ between.

(** The ancestors of the account end in a root and the pool OU is not among
    them: the account lies in a subtree disjoint from the pool OU. *)
Definition disjointFromPool (getParent : string → list string) (a poolOU : string)
    (path : list string) : Prop :=
  ∃ top, ancestry getParent a path top ∧ getParent top = [] ∧ poolOU ∉ path.

(** ** A mock of the Organizations service

    The parents of each known node and the tag set of each known account;
    queries about unknown identifiers fail as the service does. *)
Record Org : Type := {
  parentsOf : gmap string (list string);
  tagsOf : gmap string (gmap string string)
}.

Definition orgListParents (input : ListParentsInput) (w : Org)
  : (option ListParentsOutput * option error) * Org :=
  match ChildId input ≫= (λ id, parentsOf w !! id) with
  | Some ps => ((Some (parentsOutput ps), None), w)
  | None => ((None, Some (errorString "ChildNotFoundException")), w)
  end.

Definition orgMoveAccount (input : MoveAccountInput) (w : Org) : option error * Org :=
  match AccountId input, SourceParentId input, DestinationParentId input with
  | Some a, Some src, Some dst =>
    match parentsOf w !! a with
    | Some [p] =>
      if (p =? src)%string then
        (None, {| parentsOf := <[a := [dst]]> (parentsOf w); tagsOf := tagsOf w |})
      else (Some (errorString "SourceParentNotFoundException"), w)
    | _ => (Some (errorString "AccountNotFoundException"), w)
    end
  | _, _, _ => (Some (errorString "InvalidInputException"), w)
  end.

Definition orgListTagsForResource (input : ListTagsForResourceInput) (w : Org)
  : (option ListTagsForResourceOutput * option error) * Org :=
  match ResourceId input ≫= (λ id, tagsOf w !! id) with
  | Some tags => ((Some {| Tags := tagList (map_to_list tags) |}, None), w)
  | None => ((None, Some (errorString "TargetNotFoundException")), w)
  end.

Definition orgClient : Client :=
  {| ListParents := orgListParents;
     MoveAccount_ := orgMoveAccount;
     ListTagsForResource := orgListTagsForResource |}.

(** The client of a service that answers parent queries by an oracle and
    knows nothing else. *)
Definition oracleClient (getParent : string → list string) : Client (W:=unit) :=
  {| ListParents := λ input w,
       match ChildId input with
       | Some id => ((Some (parentsOutput (getParent id)), None), w)
       | None => ((None, Some (errorString "InvalidInputException")), w)
       end;
     MoveAccount_ := λ _ w, (Some (errorString "AccessDeniedException"), w);
     ListTagsForResource := λ _ w, ((None, Some (errorString "AccessDeniedException")), w) |}.

(** The client of a service that answers every tag query with the same
    list of tags and knows nothing else. *)
Definition tagsClient (tags : list (option Tag)) : Client (W:=unit) :=
  {| ListParents := λ _ w, ((None, Some (errorString "AccessDeniedException")), w);
     MoveAccount_ := λ _ w, (Some (errorString "AccessDeniedException"), w);
     ListTagsForResource := λ _ w, ((Some {| Tags := tags |}, None), w) |}.

(** The state of a fresh process: both gates are off (lines 26-27). *)
Definition initialState {W : Type} (w : W) : state :=
  {| aws := w; accountMoveEnabled := false; accountTagEnabled := false; calls := [] |}.

(** An organization: a root with the pool OU and another OU below it; one
    account in the pool OU, one in the other OU, one directly under the
    root, one with two parents. *)
Definition demoOrg : Org :=
  {| parentsOf :=
       list_to_map
         [("r-root", []); ("ou-pool", ["r-root"]); ("ou-other", ["r-root"]);
          ("111111111111", ["ou-pool"]); ("222222222222", ["ou-other"]);
          ("333333333333", ["r-root"]); ("444444444444", ["ou-pool"; "ou-other"])];
     tagsOf :=
       list_to_map
         [("111111111111", list_to_map [("team", "x"); ("owner", "shard1")]);
          ("222222222222", list_to_map [("owner", "shard2")]);
          ("333333333333", list_to_map [("team", "x")])] |}.

(** An organization with a fault: the account 555555555555 sits in the OU
    ou-a, and ou-a is listed with two parents. *)
Definition tangledOrg : Org :=
  {| parentsOf :=
       list_to_map
         [("r-1", []); ("r-2", []); ("ou-a", ["r-1"; "r-2"]); ("555555555555", ["ou-a"])];
     tagsOf := ∅ |}.

Definition demoOracle (id : string) : list string :=
  default [] (parentsOf demoOrg !! id).

Definition demoState : state := initialState demoOrg.

Definition isDemoPool (s : string) : bool := (s =? "ou-pool")%string.

Definition mkAccount (id : string) (byoc pool : bool) : Account :=
  {| Spec := {| AwsAccountID := id; BYOC := byoc |}; OwnedByAccountPool := pool |}.

Definition demoReconciler (a : Account) (data : list (string * string)) : ValidateAccount :=
  {| Get := λ _, inl a;
     GetOperatorConfigMap := inl {| Data := list_to_map data |};
     GetClient := (Some orgClient, None);
     shardName := "shard1" |}.

Definition demoRequest : NamespacedName :=
  {| Namespace := "aws-account-operator"; Name := "osd-creds-mgmt-aaabbb" |}.

Example demo_in_pool :
  (IsAccountInPoolOU 5 (mkAccount "111111111111" false false) (Some orgClient)
     isDemoPool demoState).1 = Return true.
Proof. vm_compute. reflexivity. Qed.

Example demo_other_ou :
  (IsAccountInPoolOU 5 (mkAccount "222222222222" false false) (Some orgClient)
     isDemoPool demoState).1 = Return false.
Proof. vm_compute. reflexivity. Qed.

(** * Properties *)

Section Properties.

Context {W : Type}.
Implicit Types (s : state (W:=W)) (c : Client (W:=W)) (client : option (Client (W:=W))).

(** ** Running the monad *)

Ltac go_run :=
  cbv [mbind mret Go_bind Go_ret deref index raise outOfFuel]; simpl.

Lemma bind_run {A B : Type} (m : Go A) (f : A → Go B) s :
  (m ≫= f) s =
  match m s with
  | (Return a, s') => f a s'
  | (Panics p, s') => (Panics p, s')
  | (OutOfFuel, s') => (OutOfFuel, s')
  end.
Proof. reflexivity. Qed.

Lemma bind_Return {A B : Type} (m : Go A) (f : A → Go B) s a s' :
  m s = (Return a, s') → (m ≫= f) s = f a s'.
Proof. intros H. rewrite bind_run, H. reflexivity. Qed.

Lemma ret_run {A : Type} (a : A) s : (mret a : Go A) s = (Return a, s).
Proof. reflexivity. Qed.

Lemma callListParents_run c input s :
  callListParents (Some c) input s =
  (Return (ListParents c input (aws s)).1,
   called s (ListParents c input (aws s)).2
     (CallListParents input (ListParents c input (aws s)).1.1
        (ListParents c input (aws s)).1.2)).
Proof.
  unfold callListParents, perform. rewrite bind_run. simpl.
  destruct (ListParents c input (aws s)) as [r w]. reflexivity.
Qed.

Lemma callListParents_nil input s :
  callListParents (W:=W) None input s = (Panics NilDereference, s).
Proof. reflexivity. Qed.

Lemma callMoveAccount_run c input s :
  callMoveAccount (Some c) input s =
  (Return (MoveAccount_ c input (aws s)).1,
   called s (MoveAccount_ c input (aws s)).2
     (CallMoveAccount input (MoveAccount_ c input (aws s)).1)).
Proof.
  unfold callMoveAccount, perform. rewrite bind_run. simpl.
  destruct (MoveAccount_ c input (aws s)) as [r w]. reflexivity.
Qed.

Lemma callListTagsForResource_run c input s :
  callListTagsForResource (Some c) input s =
  (Return (ListTagsForResource c input (aws s)).1,
   called s (ListTagsForResource c input (aws s)).2
     (CallListTagsForResource input (ListTagsForResource c input (aws s)).1.1
        (ListTagsForResource c input (aws s)).1.2)).
Proof.
  unfold callListTagsForResource, perform. rewrite bind_run. simpl.
  destruct (ListTagsForResource c input (aws s)) as [r w]. reflexivity.
Qed.

(** ** One hop of the ancestry walk *)

Lemma calls_called s (w : W) (call : Call) : calls (called s w call) = calls s ++ [call].
Proof. reflexivity. Qed.

Lemma calls_afterListParents c awsId s :
  calls (afterListParents c awsId s) =
  calls s ++ [CallListParents {| ChildId := Some awsId |}
                (ListParents c {| ChildId := Some awsId |} (aws s)).1.1
                (ListParents c {| ChildId := Some awsId |} (aws s)).1.2].
Proof. reflexivity. Qed.

Lemma walk_unfold fuel awsId c p parents s :
  ParentsTillPredicate (S fuel) awsId (Some c) p parents s =
  match (ListParents c {| ChildId := Some awsId |} (aws s)).1 with
  | (_, Some e) => (Return (Some e, parents), afterListParents c awsId s)
  | (None, None) => (Panics NilDereference, afterListParents c awsId s)
  | (Some out, None) =>
    match Parents out with
    | [] => (Return (None, parents), afterListParents c awsId s)
    | [None] => (Panics NilDereference, afterListParents c awsId s)
    | [Some parent] =>
      match Id parent with
      | None => (Panics NilDereference, afterListParents c awsId s)
      | Some id =>
        if p id then (Return (None, parents ++ [id]), afterListParents c awsId s)
        else ParentsTillPredicate fuel id (Some c) p (parents ++ [id])
               (afterListParents c awsId s)
      end
    | _ :: _ :: _ =>
      (Return (Some (errorString ("More than 1 parents found for Id " +:+ awsId)), parents),
       afterListParents c awsId s)
    end
  end.
Proof.
  unfold afterListParents. simpl ParentsTillPredicate.
  rewrite bind_run, callListParents_run.
  destruct (ListParents c {| ChildId := Some awsId |} (aws s)) as [[[out|] [e|]] w];
    try reflexivity.
  destruct out as [[|[[[id|]]|] [|q ps]]]; go_run; try reflexivity.
  destruct (p id); reflexivity.
Qed.

Lemma walk_query_error fuel awsId c p parents s o e w :
  ListParents c {| ChildId := Some awsId |} (aws s) = ((o, Some e), w) →
  ParentsTillPredicate (S fuel) awsId (Some c) p parents s =
  (Return (Some e, parents), afterListParents c awsId s).
Proof. intros H. rewrite walk_unfold, H. by destruct o. Qed.

Lemma walk_zero_parents fuel awsId c p parents s w :
  ListParents c {| ChildId := Some awsId |} (aws s) = ((Some {| Parents := [] |}, None), w) →
  ParentsTillPredicate (S fuel) awsId (Some c) p parents s =
  (Return (None, parents), afterListParents c awsId s).
Proof. intros H. rewrite walk_unfold, H. reflexivity. Qed.

Lemma walk_one_parent fuel awsId c p parents s w id :
  ListParents c {| ChildId := Some awsId |} (aws s) =
    ((Some {| Parents := [Some {| Id := Some id |}] |}, None), w) →
  ParentsTillPredicate (S fuel) awsId (Some c) p parents s =
  if p id then (Return (None, parents ++ [id]), afterListParents c awsId s)
  else ParentsTillPredicate fuel id (Some c) p (parents ++ [id]) (afterListParents c awsId s).
Proof. intros H. rewrite walk_unfold, H. reflexivity. Qed.

Lemma walk_many_parents fuel awsId c p parents s w out :
  ListParents c {| ChildId := Some awsId |} (aws s) = ((Some out, None), w) →
  1 < length (Parents out) →
  ParentsTillPredicate (S fuel) awsId (Some c) p parents s =
  (Return (Some (errorString ("More than 1 parents found for Id " +:+ awsId)), parents),
   afterListParents c awsId s).
Proof.
  intros H Hlen. rewrite walk_unfold, H. simpl.
  destruct (Parents out) as [|[x|] [|y l]]; simpl in Hlen; try lia; reflexivity.
Qed.

(** ** The walk against its reference recursion *)

(** C3. For every parent oracle and every client that answers as the oracle
    does, [ParentsTillPredicate] computes what the reference recursion
    [walkAncestors] computes, hop for hop: with zero parents the accumulated
    path and no error; with one parent [p] the path extended by [p], ending
    there without error when the predicate holds for [p] and going on from
    [p] otherwise. *)
Theorem ParentsTillPredicate_walkAncestors (getParent : string → list string) c
    (Hc : answersAs c getParent) fuel nodeId (stopPredicate : string → bool) path s :
  (ParentsTillPredicate fuel nodeId (Some c) stopPredicate path s).1 =
  match walkAncestors fuel getParent nodeId stopPredicate path with
  | Some (path', fault) => Return (faultError <$> fault, path')
  | None => OutOfFuel
  end.
Proof.
  revert nodeId path s.
  induction fuel as [|fuel IH]; intros nodeId path s; [reflexivity|].
  destruct (Hc nodeId (aws s)) as [w Hw].
  simpl walkAncestors.
  destruct (getParent nodeId) as [|p [|q ps]].
  - erewrite walk_zero_parents by exact Hw. reflexivity.
  - erewrite walk_one_parent by exact Hw.
    destruct (stopPredicate p); [reflexivity|]. apply IH.
  - erewrite walk_many_parents; [reflexivity|exact Hw|simpl; lia].
Qed.

(** ** More than one parent *)

(** The calls of a run that made exactly one call. *)
Lemma single_call (x call : Call) before after :
  [x] = before ++ call :: after → before = [] ∧ after = [] ∧ call = x.
Proof.
  destruct before as [|b before]; intros Heq; simplify_eq/=; [done|].
  destruct before; discriminate.
Qed.

(** A parent query answered with more than one parent is the last call of
    the walk, and the walk then returned the error that names the queried
    identifier. *)
Lemma walk_multi_parent_last fuel awsId client (p : string → bool)
    parents s result s' :
  ParentsTillPredicate fuel awsId client p parents s = (result, s') →
  ∃ made, calls s' = calls s ++ made ∧
    ∀ before call after, made = before ++ call :: after →
      multiParentAnswer call = true →
      after = [] ∧
      ∃ input output path,
        call = CallListParents input output None ∧
        result = Return (Some (errorString
                   ("More than 1 parents found for Id " +:+ default "" (ChildId input))),
                   path).
Proof.
  revert awsId parents s.
  induction fuel as [|fuel IH]; intros awsId parents s Hrun.
  { inversion Hrun; subst. exists []. split; [by rewrite app_nil_r|].
    intros [|] ? ? Heq; discriminate Heq. }
  destruct client as [c|].
  2:{ inversion Hrun; subst. exists []. split; [by rewrite app_nil_r|].
      intros [|] ? ? Heq; discriminate Heq. }
  rewrite walk_unfold in Hrun.
  pose proof (calls_afterListParents c awsId s) as Hs1.
  destruct (ListParents c {| ChildId := Some awsId |} (aws s)) as [[o e] w];
    cbn [fst snd] in *.
  assert (Hstop : ∀ r, (r, afterListParents c awsId s) = (result, s') →
    (multiParentAnswer (CallListParents {| ChildId := Some awsId |} o e) = true →
     ∃ path, r = Return (Some (errorString ("More than 1 parents found for Id " +:+ awsId)),
                         path)) →
    ∃ made, calls s' = calls s ++ made ∧
      ∀ before call after, made = before ++ call :: after →
        multiParentAnswer call = true →
        after = [] ∧
        ∃ input output path,
          call = CallListParents input output None ∧
          result = Return (Some (errorString
                     ("More than 1 parents found for Id " +:+ default "" (ChildId input))),
                     path)).
  { intros r Heq Hr. inversion Heq; subst. eexists; split; [exact Hs1|].
    intros before call after Hsplit Hm. apply single_call in Hsplit as (_ & -> & ->).
    split; [done|]. destruct (Hr Hm) as [path ->].
    destruct e; [by destruct o|]. eexists _, _, _. split; reflexivity. }
  destruct e as [e|]; [destruct o; (eapply Hstop; [exact Hrun|discriminate])|].
  destruct o as [[[|[[[id|]]|] [|q ps]]]|]; cbn [Parents Id] in Hrun;
    try (eapply Hstop; [exact Hrun|]; simpl; first [discriminate|by eexists]).
  destruct (p id); [eapply Hstop; [exact Hrun|discriminate]|].
  apply IH in Hrun as (made & Hcalls & Hmade).
  eexists (_ :: made).
  split. { rewrite Hcalls, Hs1, <- app_assoc. reflexivity. }
  intros [|b before] call after Heq Hm; simplify_eq/=.
  eapply Hmade; eauto.
Qed.

(** A hop that reports more than one parent, after any number of hops over
    single rejected parents, makes the walk fail there. *)
Lemma walk_fails_on_many_parents c (p : string → bool) awsId s below x s1 out :
  climbs c p awsId s below x s1 →
  (ListParents c {| ChildId := Some x |} (aws s1)).1 = (Some out, None) →
  1 < length (Parents out) →
  ∀ fuel parents, length below < fuel →
    ParentsTillPredicate fuel awsId (Some c) p parents s =
    (Return (Some (errorString ("More than 1 parents found for Id " +:+ x)),
             parents ++ below),
     afterListParents c x s1).
Proof.
  intros Hclimb Hq Hlen.
  induction Hclimb as [a s|a s out0 parent id below top s' Hq0 Hps Hid Hp Hclimb IH];
    intros fuel parents Hfuel.
  - destruct fuel as [|fuel]; [simpl in Hfuel; lia|].
    destruct (ListParents c {| ChildId := Some a |} (aws s)) as [[o e] w] eqn:Hans.
    cbn [fst] in Hq. injection Hq as -> ->.
    rewrite app_nil_r. by eapply walk_many_parents.
  - destruct fuel as [|fuel]; [simpl in Hfuel; lia|].
    rewrite walk_unfold, Hq0, Hps, Hid, Hp.
    rewrite (IH Hq fuel (parents ++ [id])) by (simpl in Hfuel; lia).
    by rewrite <- app_assoc.
Qed.

(** C4. Whenever a parent query of the walk reports more than one parent,
    be it the first or one made after any number of hops over single
    parents that the predicate rejects, the walk fails: it returns the
    error that names the queried identifier, with the path collected so
    far, in the state right after that query, so that no further query is
    made.  And in every run of the walk, a parent query that was answered
    with more than one parent is the last call, the run having returned
    that error. *)
Theorem ParentsTillPredicate_multi_parent fuel awsId (p : string → bool) parents s :
  (∀ c below x s1 out,
     climbs c p awsId s below x s1 →
     (ListParents c {| ChildId := Some x |} (aws s1)).1 = (Some out, None) →
     1 < length (Parents out) →
     length below < fuel →
     ParentsTillPredicate fuel awsId (Some c) p parents s =
     (Return (Some (errorString ("More than 1 parents found for Id " +:+ x)),
              parents ++ below),
      afterListParents c x s1) ∧
     calls (afterListParents c x s1) = calls s1 ++ [parentQuery c x s1]) ∧
  (∀ client result s',
     ParentsTillPredicate fuel awsId client p parents s = (result, s') →
     ∃ made, calls s' = calls s ++ made ∧
       ∀ before call after, made = before ++ call :: after →
         multiParentAnswer call = true →
         after = [] ∧
         ∃ input output path,
           call = CallListParents input output None ∧
           result = Return (Some (errorString
                      ("More than 1 parents found for Id " +:+
                       default "" (ChildId input))),
                      path)).
Proof.
  split.
  - intros c below x s1 out Hclimb Hq Hlen Hfuel. split; [|reflexivity].
    by eapply walk_fails_on_many_parents.
  - intros client result s'. apply walk_multi_parent_last.
Qed.

(** ** Pool membership *)

Lemma IsAccountInPoolOU_no_id fuel account client (isPoolOU : string → bool) s :
  AwsAccountID (Spec account) = "" →
  IsAccountInPoolOU fuel account client isPoolOU s = (Return false, s).
Proof. unfold IsAccountInPoolOU. intros ->. reflexivity. Qed.

Lemma IsAccountInPoolOU_walk_error fuel account client (isPoolOU : string → bool) s
    e path s' :
  AwsAccountID (Spec account) ≠ "" →
  ParentsTillPredicate fuel (AwsAccountID (Spec account)) client isPoolOU [] s =
    (Return (Some e, path), s') →
  IsAccountInPoolOU fuel account client isPoolOU s = (Return false, s').
Proof.
  intros Hid%String.eqb_neq Hwalk. unfold IsAccountInPoolOU. rewrite Hid.
  erewrite bind_Return by exact Hwalk. reflexivity.
Qed.

Lemma IsAccountInPoolOU_walk_path fuel account client (isPoolOU : string → bool) s
    path s' :
  AwsAccountID (Spec account) ≠ "" →
  ParentsTillPredicate fuel (AwsAccountID (Spec account)) client isPoolOU [] s =
    (Return (None, path), s') →
  IsAccountInPoolOU fuel account client isPoolOU s =
    (Return (bool_decide (length path = 1)), s').
Proof.
  intros Hid%String.eqb_neq Hwalk. unfold IsAccountInPoolOU. rewrite Hid.
  erewrite bind_Return by exact Hwalk.
  simpl. destruct path as [|x [|y l]]; reflexivity.
Qed.

(** C2. [IsAccountInPoolOU] answers false without any call when the account
    has no identifier; otherwise it answers false when the walk returns an
    error, and when the walk returns a path without error it answers whether
    that path has length 1.  The answer is a boolean: no error is passed
    on. *)
Theorem IsAccountInPoolOU_cases fuel account client (isPoolOU : string → bool) s :
  (AwsAccountID (Spec account) = "" →
   IsAccountInPoolOU fuel account client isPoolOU s = (Return false, s)) ∧
  (AwsAccountID (Spec account) ≠ "" →
   (∀ e path s',
      ParentsTillPredicate fuel (AwsAccountID (Spec account)) client isPoolOU [] s =
        (Return (Some e, path), s') →
      IsAccountInPoolOU fuel account client isPoolOU s = (Return false, s')) ∧
   (∀ path s',
      ParentsTillPredicate fuel (AwsAccountID (Spec account)) client isPoolOU [] s =
        (Return (None, path), s') →
      IsAccountInPoolOU fuel account client isPoolOU s =
        (Return (bool_decide (length path = 1)), s'))).
Proof.
  split; [apply IsAccountInPoolOU_no_id|].
  intros Hid. split; intros.
  - by eapply IsAccountInPoolOU_walk_error.
  - by apply IsAccountInPoolOU_walk_path.
Qed.

(** ** The account mover *)

Lemma MoveAccount_unfold awsAccountId c targetOU (moveAccount : bool) s :
  MoveAccount awsAccountId (Some c) targetOU moveAccount s =
  match (ListParents c {| ChildId := Some awsAccountId |} (aws s)).1 with
  | (_, Some e) => (Return (Some e), afterListParents c awsAccountId s)
  | (None, None) => (Panics NilDereference, afterListParents c awsAccountId s)
  | (Some out, None) =>
    match Parents out with
    | [] => (Panics IndexOutOfRange, afterListParents c awsAccountId s)
    | None :: _ => (Panics NilDereference, afterListParents c awsAccountId s)
    | Some parent :: _ =>
      match Id parent with
      | None => (Panics NilDereference, afterListParents c awsAccountId s)
      | Some oldOu =>
        if moveAccount then
          let input := {| AccountId := Some awsAccountId;
                          DestinationParentId := Some targetOU;
                          SourceParentId := Some oldOu |} in
          (Return (MoveAccount_ c input (aws (afterListParents c awsAccountId s))).1,
           afterMoveAccount c input (afterListParents c awsAccountId s))
        else (Return None, afterListParents c awsAccountId s)
      end
    end
  end.
Proof.
  unfold afterListParents, MoveAccount.
  rewrite bind_run, callListParents_run.
  destruct (ListParents c {| ChildId := Some awsAccountId |} (aws s))
    as [[[out|] [e|]] w]; try reflexivity.
  destruct out as [[|[[[oldOu|]]|] ps]]; go_run; try reflexivity.
  - destruct moveAccount; [|reflexivity].
    rewrite callMoveAccount_run. unfold afterMoveAccount.
    by destruct (MoveAccount_ c _ _) as [[e|] w'].
  - destruct moveAccount; reflexivity.
Qed.

(** C10. When the parent query succeeds with an empty list, [MoveAccount]
    panics on the index, whether the gate is on or off, after that one
    query and without any reparent request. *)
Theorem MoveAccount_no_parent_panics awsAccountId c targetOU (moveAccount : bool) s w :
  ListParents c {| ChildId := Some awsAccountId |} (aws s) =
    ((Some {| Parents := [] |}, None), w) →
  MoveAccount awsAccountId (Some c) targetOU moveAccount s =
  (Panics IndexOutOfRange,
   called s w (CallListParents {| ChildId := Some awsAccountId |}
                 (Some {| Parents := [] |}) None)).
Proof.
  intros H. rewrite MoveAccount_unfold. unfold afterListParents. rewrite H. reflexivity.
Qed.

(** C8, as the code has it. With the gate off no reparent request is made,
    and the mover returns nil when the parent query lists a parent with an
    identifier and the error of the parent query when that query fails.
    With the gate on or off, at most one reparent request is made. *)
Theorem MoveAccount_reparent_calls awsAccountId client targetOU (moveAccount : bool)
    s result s' :
  MoveAccount awsAccountId client targetOU moveAccount s = (result, s') →
  ∃ made, calls s' = calls s ++ made ∧
    length (List.filter isMoveAccountCall made) ≤ 1 ∧
    (moveAccount = false →
     List.filter isMoveAccountCall made = [] ∧
     (∀ c o e w, client = Some c →
        ListParents c {| ChildId := Some awsAccountId |} (aws s) = ((o, Some e), w) →
        result = Return (Some e)) ∧
     (∀ c out parent oldOu rest w, client = Some c →
        ListParents c {| ChildId := Some awsAccountId |} (aws s) = ((Some out, None), w) →
        Parents out = Some parent :: rest → Id parent = Some oldOu →
        result = Return None)).
Proof.
  intros Hrun. destruct client as [c|].
  2:{ inversion Hrun; subst. exists []. rewrite app_nil_r.
      split; [done|]. split; [simpl; lia|]. intros _.
      split; [done|]. split; intros; discriminate. }
  rewrite MoveAccount_unfold in Hrun.
  pose proof (calls_afterListParents c awsAccountId s) as Hs1.
  destruct (ListParents c {| ChildId := Some awsAccountId |} (aws s)) as [[o e] w] eqn:Hq;
    cbn [fst snd] in Hrun, Hs1.
  assert (Hquery : ∀ r, (r, afterListParents c awsAccountId s) = (result, s') →
    (∀ e', e = Some e' → r = Return (Some e')) →
    (∀ out parent oldOu rest, o = Some out → e = None →
       Parents out = Some parent :: rest → Id parent = Some oldOu →
       moveAccount = false → r = Return None) →
    ∃ made, calls s' = calls s ++ made ∧
      length (List.filter isMoveAccountCall made) ≤ 1 ∧
      (moveAccount = false →
       List.filter isMoveAccountCall made = [] ∧
       (∀ c0 o e w, Some c = Some c0 →
          ListParents c0 {| ChildId := Some awsAccountId |} (aws s) = ((o, Some e), w) →
          result = Return (Some e)) ∧
       (∀ c0 out parent oldOu rest w, Some c = Some c0 →
          ListParents c0 {| ChildId := Some awsAccountId |} (aws s) = ((Some out, None), w) →
          Parents out = Some parent :: rest → Id parent = Some oldOu →
          result = Return None))).
  { intros r Heq Herr Hok. inversion Heq; subst result s'.
    eexists; split; [exact Hs1|]. split; [simpl; lia|]. intros Hoff.
    split; [done|]. split.
    - intros c0 o0 e0 w0 Hc H0. injection Hc as <-. rewrite Hq in H0.
      injection H0 as <- -> <-. by apply Herr.
    - intros c0 out parent oldOu rest w0 Hc H0 Hps Hid. injection Hc as <-.
      rewrite Hq in H0. injection H0 as -> -> <-. eapply Hok; eauto. }
  destruct e as [e|].
  { destruct o; (eapply Hquery; [exact Hrun|intros; by simplify_eq|intros; discriminate]). }
  destruct o as [[[|[[[oldOu|]]|] ps]]|]; cbn [Parents Id] in Hrun;
    try (eapply Hquery; [exact Hrun|intros; discriminate|intros; by simplify_eq/=]).
  destruct moveAccount.
  - inversion Hrun; subst. eexists [_; _]. split.
    { unfold afterMoveAccount. rewrite calls_called, Hs1, <- app_assoc. reflexivity. }
    split; [simpl; lia|]. intros; discriminate.
  - eapply Hquery; [exact Hrun|intros; discriminate|done].
Qed.

(** ** Feature gates *)

Lemma loadFeatureGates_run cm s :
  loadFeatureGates cm s = (Return tt, (loadFeatureGates cm s).2).
Proof.
  unfold loadFeatureGates. rewrite bind_run.
  destruct (ParseBool (mapIndex (Data cm) "feature.validation_move_account"));
    destruct (ParseBool (mapIndex (Data cm) "feature.validation_tag_account"));
    reflexivity.
Qed.

Lemma Reconcile_runChecks fuel r request account cm s :
  Get r request = inl account → GetOperatorConfigMap r = inl cm →
  Reconcile fuel r request s = runChecks fuel r account cm (loadFeatureGates cm s).2.
Proof.
  intros Hget Hcm. unfold Reconcile. rewrite Hget, Hcm.
  erewrite bind_Return by apply loadFeatureGates_run. reflexivity.
Qed.

Lemma loadFeatureGates_frame cm s :
  aws (loadFeatureGates cm s).2 = aws s ∧ calls (loadFeatureGates cm s).2 = calls s.
Proof.
  unfold loadFeatureGates. rewrite bind_run.
  destruct (ParseBool (mapIndex (Data cm) "feature.validation_move_account"));
    destruct (ParseBool (mapIndex (Data cm) "feature.validation_tag_account"));
    split; reflexivity.
Qed.

(** C9. Reading the gates never fails and touches nothing but the gates.  A
    gate whose key is absent from the config map, or whose value does not
    parse as a boolean, keeps the value it had; one that parses takes the
    parsed value.  The reconciliation then goes on with its checks, and both
    gates are off in a fresh process. *)
Theorem loadFeatureGates_sticky cm s :
  (loadFeatureGates cm s).1 = Return tt ∧
  aws (loadFeatureGates cm s).2 = aws s ∧
  calls (loadFeatureGates cm s).2 = calls s ∧
  (Data cm !! "feature.validation_move_account" = None ∨
   ParseBool (mapIndex (Data cm) "feature.validation_move_account") = None →
   accountMoveEnabled (loadFeatureGates cm s).2 = accountMoveEnabled s) ∧
  (∀ b, ParseBool (mapIndex (Data cm) "feature.validation_move_account") = Some b →
   accountMoveEnabled (loadFeatureGates cm s).2 = b) ∧
  (Data cm !! "feature.validation_tag_account" = None ∨
   ParseBool (mapIndex (Data cm) "feature.validation_tag_account") = None →
   accountTagEnabled (loadFeatureGates cm s).2 = accountTagEnabled s) ∧
  (∀ b, ParseBool (mapIndex (Data cm) "feature.validation_tag_account") = Some b →
   accountTagEnabled (loadFeatureGates cm s).2 = b) ∧
  (∀ fuel r request account,
     Get r request = inl account → GetOperatorConfigMap r = inl cm →
     Reconcile fuel r request s = runChecks fuel r account cm (loadFeatureGates cm s).2) ∧
  (∀ w : W, accountMoveEnabled (initialState w) = false ∧
            accountTagEnabled (initialState w) = false).
Proof.
  assert (Habsent : ∀ k, Data cm !! k = None ∨ ParseBool (mapIndex (Data cm) k) = None →
                         ParseBool (mapIndex (Data cm) k) = None).
  { intros k [Hk|Hk]; [|done]. unfold mapIndex. rewrite Hk. reflexivity. }
  split; [by rewrite loadFeatureGates_run|].
  split; [apply loadFeatureGates_frame|].
  split; [apply loadFeatureGates_frame|].
  repeat split.
  - intros H%Habsent. unfold loadFeatureGates. rewrite bind_run, H.
    destruct (ParseBool (mapIndex (Data cm) "feature.validation_tag_account"));
      reflexivity.
  - intros b H. unfold loadFeatureGates. rewrite bind_run, H.
    destruct (ParseBool (mapIndex (Data cm) "feature.validation_tag_account"));
      reflexivity.
  - intros H%Habsent. unfold loadFeatureGates. rewrite bind_run, H.
    destruct (ParseBool (mapIndex (Data cm) "feature.validation_move_account"));
      reflexivity.
  - intros b H. unfold loadFeatureGates. rewrite bind_run, H.
    destruct (ParseBool (mapIndex (Data cm) "feature.validation_move_account"));
      reflexivity.
  - intros. by apply Reconcile_runChecks.
Qed.

(** ** Accounts out of scope *)

(** C5. A bring-your-own-cloud account, and an account owned by the account
    pool, is classified [InvalidAccount] by [ValidateAccountOU] with the
    state untouched: no parent query, no reparent request, no tag query.
    Once the account and the config map are fetched, [Reconcile] answers
    no-requeue for it, without any call through the AWS client. *)
Theorem out_of_scope_account fuel awsClient account poolOU s :
  IsBYOC account = true ∨ IsOwnedByAccountPool account = true →
  (∃ e, ValidateAccountOU fuel awsClient account poolOU s =
          (Return (Some (AccountValidationError InvalidAccount e)), s)) ∧
  (∀ r request cm,
     Get r request = inl account → GetOperatorConfigMap r = inl cm →
     ∃ s', Reconcile fuel r request s = (Return DoNotRequeue, s') ∧
           calls s' = calls s ∧ aws s' = aws s).
Proof.
  intros Hscope.
  assert (Hou : ∀ client pool s0, ∃ e,
    ValidateAccountOU fuel client account pool s0 =
      (Return (Some (AccountValidationError InvalidAccount e)), s0)).
  { intros client pool s0. unfold ValidateAccountOU.
    destruct (IsBYOC account); [by eexists|].
    destruct Hscope as [?| ->]; [discriminate|by eexists]. }
  split; [apply Hou|].
  intros r request cm Hget Hcm.
  exists (loadFeatureGates cm s).2.
  destruct (loadFeatureGates_frame cm s) as [Haws Hcalls].
  split; [|done].
  rewrite (Reconcile_runChecks _ _ _ _ _ _ Hget Hcm). unfold runChecks.
  destruct (GetClient r) as [client ?].
  destruct (Hou client (mapIndex (Data cm) "root") (loadFeatureGates cm s).2) as [e He].
  erewrite bind_Return by exact He. reflexivity.
Qed.

(** ** What the OU check leaves alone *)

Lemma noTagQuery_refl s : noTagQuery s s.
Proof. reflexivity. Qed.

Lemma noTagQuery_trans s1 s2 s3 : noTagQuery s1 s2 → noTagQuery s2 s3 → noTagQuery s1 s3.
Proof. unfold noTagQuery. congruence. Qed.

Lemma noTagQuery_afterListParents c awsId s : noTagQuery s (afterListParents c awsId s).
Proof.
  unfold noTagQuery. rewrite calls_afterListParents, List.filter_app. simpl.
  by rewrite app_nil_r.
Qed.

Lemma noTagQuery_afterMoveAccount c input s : noTagQuery s (afterMoveAccount c input s).
Proof.
  unfold noTagQuery, afterMoveAccount. rewrite calls_called, List.filter_app. simpl.
  by rewrite app_nil_r.
Qed.

Lemma ParentsTillPredicate_noTagQuery fuel awsId client (p : string → bool) parents s r s' :
  ParentsTillPredicate fuel awsId client p parents s = (r, s') → noTagQuery s s'.
Proof.
  revert awsId parents s.
  induction fuel as [|fuel IH]; intros awsId parents s Hrun.
  { inversion Hrun. apply noTagQuery_refl. }
  destruct client as [c|]; [|inversion Hrun; apply noTagQuery_refl].
  rewrite walk_unfold in Hrun.
  pose proof (noTagQuery_afterListParents c awsId s) as Hs1.
  destruct (ListParents c {| ChildId := Some awsId |} (aws s)) as [[[out|] [e|]] w];
    cbn [fst snd] in Hrun; try (by inversion Hrun; subst).
  destruct out as [[|[[[id|]]|] [|q ps]]]; cbn [Parents Id] in Hrun;
    try (by inversion Hrun; subst).
  destruct (p id); [by inversion Hrun; subst|].
  eapply noTagQuery_trans; [exact Hs1|]. eapply IH, Hrun.
Qed.

Lemma IsAccountInPoolOU_noTagQuery fuel account client (isPoolOU : string → bool) s r s' :
  IsAccountInPoolOU fuel account client isPoolOU s = (r, s') → noTagQuery s s'.
Proof.
  unfold IsAccountInPoolOU.
  destruct (AwsAccountID (Spec account) =? "")%string.
  { intros H. inversion H. apply noTagQuery_refl. }
  rewrite bind_run.
  destruct (ParentsTillPredicate _ _ _ _ _ s) as [[[err path]| |] s1] eqn:Hwalk;
    apply ParentsTillPredicate_noTagQuery in Hwalk.
  - destruct err; [|destruct (length path =? 1)%nat]; intros H; by inversion H; subst.
  - intros H; by inversion H; subst.
  - intros H; by inversion H; subst.
Qed.

Lemma MoveAccount_noTagQuery awsAccountId client targetOU (moveAccount : bool) s r s' :
  MoveAccount awsAccountId client targetOU moveAccount s = (r, s') → noTagQuery s s'.
Proof.
  destruct client as [c|]; [|intros H; inversion H; apply noTagQuery_refl].
  rewrite MoveAccount_unfold.
  pose proof (noTagQuery_afterListParents c awsAccountId s) as Hs1.
  destruct (ListParents c {| ChildId := Some awsAccountId |} (aws s)) as [[[out|] [e|]] w];
    cbn [fst snd]; try (by intros H; inversion H; subst).
  destruct out as [[|[[[oldOu|]]|] ps]]; cbn [Parents Id];
    try (by intros H; inversion H; subst).
  destruct moveAccount; intros H; inversion H; subst; [|done].
  eapply noTagQuery_trans; [exact Hs1|]. apply noTagQuery_afterMoveAccount.
Qed.

Lemma ValidateAccountOU_noTagQuery fuel awsClient account poolOU s r s' :
  ValidateAccountOU fuel awsClient account poolOU s = (r, s') → noTagQuery s s'.
Proof.
  unfold ValidateAccountOU.
  destruct (IsBYOC account); [intros H; inversion H; apply noTagQuery_refl|].
  destruct (IsOwnedByAccountPool account); [intros H; inversion H; apply noTagQuery_refl|].
  rewrite bind_run.
  destruct (IsAccountInPoolOU _ _ _ _ s) as [[[|]| |] s1] eqn:Hin;
    apply IsAccountInPoolOU_noTagQuery in Hin;
    try (by intros H; inversion H; subst).
  rewrite bind_run. unfold getAccountMoveEnabled. rewrite bind_run.
  destruct (MoveAccount _ _ _ _ s1) as [[[e|]| |] s2] eqn:Hmove;
    apply MoveAccount_noTagQuery in Hmove;
    intros H; inversion H; subst; by eapply noTagQuery_trans.
Qed.

(** ** Requeue decisions *)

(** C6. After the account and the config map are fetched and the gates are
    read, the outcome of the run decides the answer of [Reconcile]:
    [InvalidAccount] from the OU check gives no-requeue; [AccountMoveFailed]
    gives requeue after [moveWaitTime], five minutes, and the run ends there
    with no tag query made; when the OU check passes, [MissingTag] and
    [IncorrectOwnerTag] from the tag check give no-requeue, and so does a
    tag check that passes. *)
Theorem Reconcile_requeue fuel r request account cm s :
  Get r request = inl account → GetOperatorConfigMap r = inl cm →
  let s0 := (loadFeatureGates cm s).2 in
  let awsClient := (GetClient r).1 in
  let poolOU := mapIndex (Data cm) "root" in
  let tagCheck s1 :=
    ValidateAccountTags awsClient (Some (AwsAccountID (Spec account))) (shardName r)
      (accountTagEnabled s1) s1 in
  (∀ e s1,
     ValidateAccountOU fuel awsClient account poolOU s0 =
       (Return (Some (AccountValidationError InvalidAccount e)), s1) →
     Reconcile fuel r request s = (Return DoNotRequeue, s1)) ∧
  (∀ e s1,
     ValidateAccountOU fuel awsClient account poolOU s0 =
       (Return (Some (AccountValidationError AccountMoveFailed e)), s1) →
     Reconcile fuel r request s = (Return (RequeueAfter moveWaitTime), s1) ∧
     moveWaitTime = (5 * 60 * 1000000000)%Z ∧
     List.filter isListTagsCall (calls s1) = List.filter isListTagsCall (calls s)) ∧
  (∀ s1 kind e s2,
     ValidateAccountOU fuel awsClient account poolOU s0 = (Return None, s1) →
     tagCheck s1 = (Return (Some (AccountValidationError kind e)), s2) →
     kind = MissingTag ∨ kind = IncorrectOwnerTag →
     Reconcile fuel r request s = (Return DoNotRequeue, s2)) ∧
  (∀ s1 s2,
     ValidateAccountOU fuel awsClient account poolOU s0 = (Return None, s1) →
     tagCheck s1 = (Return None, s2) →
     Reconcile fuel r request s = (Return DoNotRequeue, s2)).
Proof.
  intros Hget Hcm s0 awsClient poolOU tagCheck.
  rewrite (Reconcile_runChecks _ _ _ _ _ _ Hget Hcm). fold s0.
  unfold runChecks. subst awsClient tagCheck poolOU.
  destruct (GetClient r) as [awsClient ?]. cbn [fst].
  repeat split.
  - intros e s1 Hou. erewrite bind_Return by exact Hou. reflexivity.
  - erewrite bind_Return by eassumption. reflexivity.
  - apply ValidateAccountOU_noTagQuery in H. unfold noTagQuery in H. rewrite H.
    subst s0. by destruct (loadFeatureGates_frame cm s) as [_ ->].
  - intros s1 kind e s2 Hou Htag Hkind. erewrite bind_Return by exact Hou.
    cbn match. rewrite bind_run. unfold getAccountTagEnabled.
    erewrite bind_Return by exact Htag.
    by destruct Hkind as [-> | ->].
  - intros s1 s2 Hou Htag. erewrite bind_Return by exact Hou.
    cbn match. rewrite bind_run. unfold getAccountTagEnabled.
    erewrite bind_Return by exact Htag. reflexivity.
Qed.

(** ** The owner tag *)

Lemma scanTags_cons shardName key value (rest : list (option Tag)) s :
  scanTags shardName (Some {| Key := Some key; Value := Some value |} :: rest) s =
  if (ownerKey =? key)%string then
    if (shardName =? value)%string then (Return None, s)
    else (Return (Some (AccountValidationError IncorrectOwnerTag
                          (errorString "Account is not tagged with the correct owner"))), s)
  else scanTags shardName rest s.
Proof.
  cbn [scanTags]. cbv [mbind mret Go_bind Go_ret deref]. cbn [Key Value].
  destruct (ownerKey =? key)%string; [|reflexivity].
  by destruct (shardName =? value)%string.
Qed.

(** The scan stops at the first tag with the owner key, which is the entry
    that [list_to_map] keeps for that key. *)
Lemma scanTags_tagList shardName (kvs : list (string * string)) s :
  scanTags shardName (tagList kvs) s =
  (Return
     match (list_to_map kvs : gmap string string) !! ownerKey with
     | None =>
       Some (AccountValidationError MissingTag
               (errorString "Account is not tagged with an owner"))
     | Some value =>
       if (shardName =? value)%string then None
       else Some (AccountValidationError IncorrectOwnerTag
                    (errorString "Account is not tagged with the correct owner"))
     end, s).
Proof.
  induction kvs as [|[key value] kvs IH]; [reflexivity|].
  change (tagList ((key, value) :: kvs))
    with (Some {| Key := Some key; Value := Some value |} :: tagList kvs).
  rewrite scanTags_cons. cbn [list_to_map foldr uncurry fst snd].
  destruct (String.eqb_spec ownerKey key) as [<-|Hne].
  - rewrite lookup_insert_eq. by destruct (shardName =? value)%string.
  - rewrite lookup_insert_ne by done. apply IH.
Qed.

(** C7. When the tag query answers with a tag set, in whatever order its
    entries are listed, [ValidateAccountTags] returns nil exactly when the
    set maps the key owner to the expected owner; an owner entry with
    another value gives an error of kind [IncorrectOwnerTag], and a set
    without the key owner gives an error of kind [MissingTag]. *)
Theorem ValidateAccountTags_owner c accountId shardName (accountTagEnabled : bool) s
    (tags : gmap string string) (kvs : list (string * string)) w :
  kvs ≡ₚ map_to_list tags →
  ListTagsForResource c {| ResourceId := accountId |} (aws s) =
    ((Some {| Tags := tagList kvs |}, None), w) →
  ∃ r,
    ValidateAccountTags (Some c) accountId shardName accountTagEnabled s =
      (Return r,
       called s w (CallListTagsForResource {| ResourceId := accountId |}
                     (Some {| Tags := tagList kvs |}) None)) ∧
    (r = None ↔ tags !! "owner" = Some shardName) ∧
    (∀ value, tags !! "owner" = Some value → value ≠ shardName →
       r = Some (AccountValidationError IncorrectOwnerTag
                   (errorString "Account is not tagged with the correct owner"))) ∧
    (tags !! "owner" = None →
       r = Some (AccountValidationError MissingTag
                   (errorString "Account is not tagged with an owner"))).
Proof.
  intros Hperm Hq.
  assert (Hmap : (list_to_map kvs : gmap string string) = tags).
  { rewrite <- (list_to_map_to_list tags). symmetry.
    apply list_to_map_proper; [apply NoDup_fst_map_to_list|by symmetry]. }
  eexists. split.
  { unfold ValidateAccountTags. rewrite bind_run, callListTagsForResource_run, Hq.
    cbn [fst snd]. go_run. apply scanTags_tagList. }
  rewrite Hmap. change ownerKey with "owner".
  destruct (tags !! "owner") as [value|] eqn:Hown.
  - destruct (String.eqb_spec shardName value) as [->|Hne].
    + split; [done|]. split; [|done]. intros v [= ->] Hv. by destruct Hv.
    + split; [split; [done|by intros [= ->]]|]. split; [|done]. by intros v [= ->] _.
  - split; [done|]. split; [|done]. intros v [=].
Qed.

(** ** Where the account sits in the tree *)

Lemma ancestry_app_inv getParent a (l1 l2 : list string) top :
  ancestry getParent a (l1 ++ l2) top →
  ∃ mid, ancestry getParent a l1 mid ∧ ancestry getParent mid l2 top.
Proof.
  revert a. induction l1 as [|x l1 IH]; intros a Hanc.
  - exists a. split; [constructor|exact Hanc].
  - inversion Hanc as [|? ? ? ? Hpar Hrest]; subst.
    destruct (IH _ Hrest) as (mid & H1 & H2).
    exists mid. split; [by constructor|done].
Qed.

(** Along single parents that the predicate rejects, the walk moves up and
    collects them. *)
Lemma walk_along getParent c (Hc : answersAs c getParent) (p : string → bool) a path top :
  ancestry getParent a path top →
  (∀ x, x ∈ path → p x = false) →
  ∀ fuel acc s, ∃ s',
    ParentsTillPredicate (length path + fuel) a (Some c) p acc s =
    ParentsTillPredicate fuel top (Some c) p (acc ++ path) s'.
Proof.
  induction 1 as [a|a x path top Hpar Hanc IH]; intros Hrej fuel acc s.
  - exists s. by rewrite app_nil_r.
  - destruct (Hc a (aws s)) as [w Hw]. rewrite Hpar in Hw.
    cbn [length Nat.add]. erewrite walk_one_parent by exact Hw.
    rewrite (Hrej x) by (by left).
    destruct (IH (λ y Hy, Hrej y (list_elem_of_further _ _ _ Hy)) fuel (acc ++ [x])
                (afterListParents c a s)) as [s' Hs'].
    exists s'. rewrite Hs', <- app_assoc. reflexivity.
Qed.

Lemma eqb_not_in (poolOU : string) (path : list string) :
  poolOU ∉ path → ∀ x, x ∈ path → (x =? poolOU)%string = false.
Proof.
  intros Hnot x Hx. apply String.eqb_neq. intros ->. by apply Hnot.
Qed.

(** The pool membership of an account somewhere below the pool OU: it is in
    the pool exactly when nothing lies between it and the pool OU. *)
Lemma IsAccountInPoolOU_below_pool getParent c (Hc : answersAs c getParent)
    account poolOU between fuel s :
  levelsBelowPool getParent (AwsAccountID (Spec account)) poolOU between →
  AwsAccountID (Spec account) ≠ "" →
  length between < fuel →
  (IsAccountInPoolOU fuel account (Some c) (λ x, (x =? poolOU)%string) s).1 =
  Return (bool_decide (between = [])).
Proof.
  intros [Hanc Hnot] Hid Hfuel.
  apply ancestry_app_inv in Hanc as (mid & Hup & Hlast).
  inversion Hlast as [|? ? ? ? Hpar _]; subst.
  replace fuel with (length between + S (fuel - S (length between))) by lia.
  destruct (walk_along _ _ Hc _ _ _ _ Hup (eqb_not_in _ _ Hnot)
              (S (fuel - S (length between))) [] s) as [s' Hwalk].
  destruct (Hc mid (aws s')) as [w Hw]. rewrite Hpar in Hw.
  erewrite walk_one_parent in Hwalk by exact Hw.
  rewrite String.eqb_refl in Hwalk.
  erewrite IsAccountInPoolOU_walk_path; [|exact Hid|exact Hwalk].
  cbn [fst]. f_equal. rewrite app_nil_l, length_app. cbn [length].
  destruct between; [done|]. cbn [length].
  rewrite !bool_decide_eq_false_2; [done|done|lia].
Qed.

(** The pool membership of an account in a subtree disjoint from the pool
    OU: the check answers true when the account has exactly one ancestor,
    a root that is not the pool OU, and false otherwise. *)
Lemma IsAccountInPoolOU_disjoint getParent c (Hc : answersAs c getParent)
    account poolOU path fuel s :
  disjointFromPool getParent (AwsAccountID (Spec account)) poolOU path →
  AwsAccountID (Spec account) ≠ "" →
  length path < fuel →
  (IsAccountInPoolOU fuel account (Some c) (λ x, (x =? poolOU)%string) s).1 =
  Return (bool_decide (length path = 1)).
Proof.
  intros (top & Hanc & Hroot & Hnot) Hid Hfuel.
  replace fuel with (length path + S (fuel - S (length path))) by lia.
  destruct (walk_along _ _ Hc _ _ _ _ Hanc (eqb_not_in _ _ Hnot)
              (S (fuel - S (length path))) [] s) as [s' Hwalk].
  destruct (Hc top (aws s')) as [w Hw]. rewrite Hroot in Hw.
  erewrite walk_zero_parents in Hwalk by exact Hw.
  erewrite IsAccountInPoolOU_walk_path; [|exact Hid|exact Hwalk].
  reflexivity.
Qed.

(** * Further properties of the controller *)

(** ** The ancestry walk, hop by hop *)

Lemma calls_parentQuery c awsId s :
  calls (afterListParents c awsId s) = calls s ++ [parentQuery c awsId s].
Proof. reflexivity. Qed.

Lemma answeredParent_parentQuery c awsId s id :
  answeredParent (parentQuery c awsId s) = Some id ↔
  ∃ out parent,
    (ListParents c {| ChildId := Some awsId |} (aws s)).1 = (Some out, None) ∧
    Parents out = [Some parent] ∧ Id parent = Some id.
Proof.
  unfold parentQuery.
  destruct (ListParents c {| ChildId := Some awsId |} (aws s)) as [[[out|] [e|]] w];
    cbn [fst snd answeredParent];
    try (split; [discriminate|by intros (? & ? & [=] & _)]).
  destruct (Parents out) as [|[parent|] [|q ps]] eqn:Hps;
    try (split; [discriminate|by intros (? & ? & [= <-] & ? & _); congruence]).
  split.
  - intros Hid. by exists out, parent.
  - intros (? & ? & [= <-] & ? & ?). congruence.
Qed.

(** One hop of the walk: it ends at the query, ends on an accepted parent,
    or goes on from a rejected parent. *)
Lemma walk_inv fuel awsId c (p : string → bool) parents s result s' :
  ParentsTillPredicate (S fuel) awsId (Some c) p parents s = (result, s') →
  (s' = afterListParents c awsId s ∧
   answeredParent (parentQuery c awsId s) = None ∧
   result ≠ OutOfFuel ∧
   (∀ err path, result = Return (err, path) → path = parents) ∧
   (∀ e path, result = Return (Some e, path) →
      callError (parentQuery c awsId s) = Some e ∨
      e = errorString ("More than 1 parents found for Id " +:+ awsId)) ∧
   (∀ path, result = Return (None, path) →
      ∃ out, (ListParents c {| ChildId := Some awsId |} (aws s)).1 = (Some out, None) ∧
             Parents out = [])) ∨
  (s' = afterListParents c awsId s ∧
   ∃ id, answeredParent (parentQuery c awsId s) = Some id ∧ p id = true ∧
         result = Return (None, parents ++ [id])) ∨
  (∃ id, answeredParent (parentQuery c awsId s) = Some id ∧ p id = false ∧
         ParentsTillPredicate fuel id (Some c) p (parents ++ [id])
           (afterListParents c awsId s) = (result, s')).
Proof.
  intros Hrun. rewrite walk_unfold in Hrun. unfold parentQuery.
  destruct (ListParents c {| ChildId := Some awsId |} (aws s)) as [[[out|] [e|]] w];
    cbn [fst snd] in *.
  1,3: left; inversion Hrun; subst;
         (split; [done|]); (split; [done|]); (split; [done|]);
         (split; [by intros ?? [= <- <-]|]);
         (split; [intros ?? [= <- <-]; by left|by intros ? [=]]).
  2: left; inversion Hrun; subst;
       (split; [done|]); (split; [done|]); (split; [done|]);
       (split; [by intros ?? [=]|]); (split; [by intros ?? [=]|by intros ? [=]]).
  destruct out as [[|[[[id|]]|] [|q ps]]]; cbn [Parents Id] in Hrun.
  - left. inversion Hrun; subst.
    split; [done|]. split; [done|]. split; [done|].
    split; [by intros ?? [= <- <-]|]. split; [by intros ?? [=]|].
    intros ? _. by eexists.
  - destruct (p id) eqn:Hp.
    + right; left. inversion Hrun; subst. split; [done|]. by exists id.
    + right; right. by exists id.
  - left. inversion Hrun; subst.
    split; [done|]. split; [done|]. split; [done|].
    split; [by intros ?? [= <- <-]|]. split; [intros ?? [= <- <-]; by right|by intros ? [=]].
  - left. inversion Hrun; subst.
    split; [done|]. split; [done|]. split; [done|].
    split; [by intros ?? [=]|]. split; [by intros ?? [=]|by intros ? [=]].
  - left. inversion Hrun; subst.
    split; [done|]. split; [done|]. split; [done|].
    split; [by intros ?? [= <- <-]|]. split; [intros ?? [= <- <-]; by right|by intros ? [=]].
  - left. inversion Hrun; subst.
    split; [done|]. split; [done|]. split; [done|].
    split; [by intros ?? [=]|]. split; [by intros ?? [=]|by intros ? [=]].
  - left. inversion Hrun; subst.
    split; [done|]. split; [done|]. split; [done|].
    split; [by intros ?? [= <- <-]|]. split; [intros ?? [= <- <-]; by right|by intros ? [=]].
Qed.

(** A returned path starts with the path given. *)
Lemma walk_prefix fuel awsId client (p : string → bool) parents s err path s' :
  ParentsTillPredicate fuel awsId client p parents s = (Return (err, path), s') →
  ∃ new, path = parents ++ new.
Proof.
  revert awsId parents s.
  induction fuel as [|fuel IH]; intros awsId parents s Hrun; [discriminate Hrun|].
  destruct client as [c|]; [|discriminate Hrun].
  apply walk_inv in Hrun as [Hstop|[Hhit|Hgo]].
  - destruct Hstop as (_ & _ & _ & Hpath & _). rewrite (Hpath _ _ eq_refl).
    exists []. by rewrite app_nil_r.
  - destruct Hhit as (_ & id & _ & _ & [= -> ->]). by exists [id].
  - destruct Hgo as (id & _ & _ & Hrec).
    apply IH in Hrec as (new & ->). exists (id :: new). by rewrite <- app_assoc.
Qed.

(** X1. The walk only adds to the path it is given: the result is the given
    path followed by the new entries, and a new entry that satisfies the
    predicate is the last one and ends the walk without error. *)
Theorem ParentsTillPredicate_path fuel awsId client (p : string → bool) parents s
    err path s' :
  ParentsTillPredicate fuel awsId client p parents s = (Return (err, path), s') →
  ∃ new, path = parents ++ new ∧
    ∀ before x after, new = before ++ x :: after → p x = true →
      after = [] ∧ err = None.
Proof.
  revert awsId parents s.
  induction fuel as [|fuel IH]; intros awsId parents s Hrun; [discriminate Hrun|].
  destruct client as [c|]; [|discriminate Hrun].
  apply walk_inv in Hrun as [Hstop|[Hhit|Hgo]].
  - destruct Hstop as (_ & _ & _ & Hpath & _). rewrite (Hpath _ _ eq_refl).
    exists []. split; [by rewrite app_nil_r|]. by intros [|??] ???.
  - destruct Hhit as (_ & id & _ & Hp & [= -> ->]).
    exists [id]. split; [done|].
    intros [|y before] x after Heq _; simplify_eq/=; [done|].
    by destruct before.
  - destruct Hgo as (id & _ & Hp & Hrec).
    apply IH in Hrec as (new & -> & Hnew).
    exists (id :: new). split; [by rewrite <- app_assoc|].
    intros [|y before] x after Heq Hx; simplify_eq/=; [congruence|].
    by eapply Hnew.
Qed.

(** X2. Whatever the walk ends in, it talks to the service through parent
    queries only; the first one asks about the start identifier, each
    further one asks about the single parent that the query before it was
    answered with and that the predicate rejected; and a path that the walk
    returns is the given path followed by the single parents answered, in
    the order of the queries. *)
Theorem ParentsTillPredicate_queries fuel awsId client (p : string → bool) parents s
    result s' :
  ParentsTillPredicate fuel awsId client p parents s = (result, s') →
  ∃ made, calls s' = calls s ++ made ∧
    Forall (λ call, isListParentsCall call = true) made ∧
    (∀ call, head made = Some call → queriedChild call = Some awsId) ∧
    (∀ i call next, made !! i = Some call → made !! S i = Some next →
       ∃ id, answeredParent call = Some id ∧ p id = false ∧
             queriedChild next = Some id) ∧
    (∀ err path, result = Return (err, path) →
       path = parents ++ omap answeredParent made).
Proof.
  revert awsId parents s.
  induction fuel as [|fuel IH]; intros awsId parents s Hrun.
  { inversion Hrun; subst. exists []. rewrite app_nil_r.
    repeat split; [constructor|done|done|done]. }
  destruct client as [c|].
  2:{ inversion Hrun; subst. exists []. rewrite app_nil_r.
      repeat split; [constructor|done|done|done]. }
  pose proof (calls_parentQuery c awsId s) as Hcalls.
  assert (Hlp : isListParentsCall (parentQuery c awsId s) = true) by reflexivity.
  assert (Hq : queriedChild (parentQuery c awsId s) = Some awsId) by reflexivity.
  apply walk_inv in Hrun.
  remember (parentQuery c awsId s) as call eqn:Hcall. clear Hcall.
  destruct Hrun as [Hstop|[Hhit|Hgo]].
  - destruct Hstop as (-> & Hans & _ & Hpath & _).
    exists [call]. split; [done|]. split; [by constructor|].
    split; [by intros ? [= <-]|]. split; [by intros [|?] ???|].
    intros err path ->%Hpath. simpl. rewrite Hans. by rewrite app_nil_r.
  - destruct Hhit as (-> & id & Hans & Hp & ->).
    exists [call]. split; [done|]. split; [by constructor|].
    split; [by intros ? [= <-]|]. split; [by intros [|?] ???|].
    intros err path [= <- <-]. simpl. by rewrite Hans.
  - destruct Hgo as (id & Hans & Hp & Hrec).
    apply IH in Hrec as (made & Hmade & Hall & Hhead & Hchain & Hpath).
    exists (call :: made). split; [by rewrite Hmade, Hcalls, <- app_assoc|].
    split; [by constructor|]. split; [by intros ? [= <-]|]. split.
    + intros [|i] c1 c2 H1 H2; simplify_eq/=.
      * exists id. repeat split; [done..|]. apply Hhead. by destruct made.
      * by eapply Hchain.
    + intros err path ->%Hpath. simpl. rewrite Hans. by rewrite <- app_assoc.
Qed.


(** ** The walk on a tree given by an oracle *)

Lemma walk_along_count getParent c (Hc : answersAs c getParent) (p : string → bool)
    a path top :
  ancestry getParent a path top →
  (∀ x, x ∈ path → p x = false) →
  ∀ fuel acc s, ∃ s',
    ParentsTillPredicate (length path + fuel) a (Some c) p acc s =
    ParentsTillPredicate fuel top (Some c) p (acc ++ path) s' ∧
    length (calls s') = length (calls s) + length path.
Proof.
  induction 1 as [a|a x path top Hpar Hanc IH]; intros Hrej fuel acc s.
  - exists s. rewrite app_nil_r. split; [done|simpl; lia].
  - destruct (Hc a (aws s)) as [w Hw]. rewrite Hpar in Hw.
    cbn [length Nat.add]. erewrite walk_one_parent by exact Hw.
    rewrite (Hrej x) by (by left).
    destruct (IH (λ y Hy, Hrej y (list_elem_of_further _ _ _ Hy)) fuel (acc ++ [x])
                (afterListParents c a s)) as (s' & Hs' & Hlen).
    exists s'. rewrite Hs', <- app_assoc. split; [done|].
    rewrite Hlen, calls_afterListParents, length_app. simpl. lia.
Qed.

(** X3. On a tree where the ancestors of the start node end in a root and
    none of them satisfies the predicate, the walk returns without error,
    with all of these ancestors appended in order, after one query per
    ancestor and one for the root, provided the bound allows as many
    hops. *)
Theorem ParentsTillPredicate_reaches_root getParent c (Hc : answersAs c getParent)
    (p : string → bool) a path top fuel acc s :
  ancestry getParent a path top →
  getParent top = [] →
  (∀ x, x ∈ path → p x = false) →
  length path < fuel →
  ∃ s', ParentsTillPredicate fuel a (Some c) p acc s = (Return (None, acc ++ path), s') ∧
        length (calls s') = length (calls s) + S (length path).
Proof.
  intros Hanc Hroot Hrej Hfuel.
  replace fuel with (length path + S (fuel - S (length path))) by lia.
  destruct (walk_along_count _ _ Hc _ _ _ _ Hanc Hrej (S (fuel - S (length path))) acc s)
    as (s1 & -> & Hlen).
  destruct (Hc top (aws s1)) as [w Hw]. rewrite Hroot in Hw.
  erewrite walk_zero_parents by exact Hw.
  eexists. split; [reflexivity|].
  rewrite calls_afterListParents, length_app, Hlen. simpl. lia.
Qed.

(** X4. The walk stops at the first ancestor that satisfies the predicate:
    it returns the ancestors up to and including that one, and has then
    made one query per returned ancestor, none about the nodes above. *)
Theorem ParentsTillPredicate_first_match getParent c (Hc : answersAs c getParent)
    (p : string → bool) a below x fuel acc s :
  ancestry getParent a (below ++ [x]) x →
  (∀ y, y ∈ below → p y = false) →
  p x = true →
  length below < fuel →
  ∃ s', ParentsTillPredicate fuel a (Some c) p acc s =
          (Return (None, acc ++ below ++ [x]), s') ∧
        length (calls s') = length (calls s) + S (length below).
Proof.
  intros Hanc Hrej Hp Hfuel.
  apply ancestry_app_inv in Hanc as (mid & Hup & Hlast).
  inversion Hlast as [|? ? ? ? Hpar _]; subst.
  replace fuel with (length below + S (fuel - S (length below))) by lia.
  destruct (walk_along_count _ _ Hc _ _ _ _ Hup Hrej (S (fuel - S (length below))) acc s)
    as (s1 & -> & Hlen).
  destruct (Hc mid (aws s1)) as [w Hw]. rewrite Hpar in Hw.
  erewrite walk_one_parent by exact Hw. rewrite Hp.
  eexists. split; [by rewrite <- app_assoc|].
  rewrite calls_afterListParents, length_app, Hlen. simpl. lia.
Qed.

(** X5. Where every node has exactly one parent and the predicate rejects
    all of them (a cycle of parents, for one), the walk never returns:
    whatever the bound, it is cut off. *)
Theorem ParentsTillPredicate_endless getParent c (Hc : answersAs c getParent)
    (p : string → bool) :
  (∀ x, ∃ y, getParent x = [y] ∧ p y = false) →
  ∀ fuel a acc s, (ParentsTillPredicate fuel a (Some c) p acc s).1 = OutOfFuel.
Proof.
  intros Hnext fuel. induction fuel as [|fuel IH]; intros a acc s; [reflexivity|].
  destruct (Hnext a) as (y & Hpar & Hp).
  destruct (Hc a (aws s)) as [w Hw]. rewrite Hpar in Hw.
  erewrite walk_one_parent by exact Hw. rewrite Hp. apply IH.
Qed.

(** ** Pool membership and the OU check *)

(** X7. With room for two hops, [IsAccountInPoolOU] answers true in exactly
    two situations: the account has an identifier and its parent query is
    answered with a single parent which either satisfies the predicate, or
    does not satisfy it and has, by the next query, no parent at all. *)
Theorem IsAccountInPoolOU_true_iff fuel account c (isPoolOU : string → bool) s :
  (IsAccountInPoolOU (S (S fuel)) account (Some c) isPoolOU s).1 = Return true ↔
  AwsAccountID (Spec account) ≠ "" ∧
  ∃ out parent id,
    (ListParents c {| ChildId := Some (AwsAccountID (Spec account)) |} (aws s)).1
      = (Some out, None) ∧
    Parents out = [Some parent] ∧ Id parent = Some id ∧
    (isPoolOU id = true ∨
     isPoolOU id = false ∧
     ∃ out',
       (ListParents c {| ChildId := Some id |}
          (aws (afterListParents c (AwsAccountID (Spec account)) s))).1 = (Some out', None) ∧
       Parents out' = []).
Proof.
  destruct (decide (AwsAccountID (Spec account) = "")) as [Hid|Hid].
  { rewrite IsAccountInPoolOU_no_id by done. split; [discriminate|]. by intros [? _]. }
  set (a := AwsAccountID (Spec account)) in *.
  assert (Hin : (IsAccountInPoolOU (S (S fuel)) account (Some c) isPoolOU s).1 = Return true ↔
                ∃ x s', ParentsTillPredicate (S (S fuel)) a (Some c) isPoolOU [] s =
                          (Return (None, [x]), s')).
  { split.
    - unfold IsAccountInPoolOU. fold a. rewrite (proj2 (String.eqb_neq _ _) Hid).
      rewrite bind_run.
      destruct (ParentsTillPredicate (S (S fuel)) a (Some c) isPoolOU [] s)
        as [[[[e|] path]| |] s'] eqn:Hwalk; cbn; try discriminate.
      destruct path as [|x [|y l]]; cbn; try discriminate. eauto.
    - intros (x & s' & Hwalk).
      by rewrite (IsAccountInPoolOU_walk_path _ _ _ _ _ _ _ Hid Hwalk). }
  rewrite Hin. clear Hin. split.
  - intros (x & s' & Hwalk). split; [done|].
    apply walk_inv in Hwalk as [Hstop|[Hhit|Hgo]].
    + destruct Hstop as (_ & _ & _ & Hpath & _). by specialize (Hpath _ _ eq_refl).
    + destruct Hhit as (_ & id & Hans & Hp & _).
      apply answeredParent_parentQuery in Hans as (out & parent & ? & ? & ?).
      exists out, parent, id. repeat split; [done..|]. by left.
    + destruct Hgo as (id & Hans & Hp & Hrec).
      apply answeredParent_parentQuery in Hans as (out & parent & ? & ? & ?).
      exists out, parent, id. repeat split; [done..|]. right. split; [done|].
      apply walk_inv in Hrec as [Hstop|[Hhit|Hgo]].
      * destruct Hstop as (_ & _ & _ & _ & _ & Hzero). by apply (Hzero _ eq_refl).
      * by destruct Hhit as (_ & id' & _ & _ & [=]).
      * destruct Hgo as (id' & _ & _ & Hrec).
        apply walk_prefix in Hrec as (new & Hnew). by destruct new.
  - intros (_ & out & parent & id & Hq & Hps & Hparent & Hcases).
    rewrite walk_unfold, Hq, Hps, Hparent.
    destruct Hcases as [->|(-> & out' & Hq' & Hps')]; [by eexists _, _|].
    rewrite walk_unfold, Hq', Hps'. by eexists _, _.
Qed.


(** X8. An account in scope whose parent query is answered with the pool OU
    as its single parent passes the OU check with that one query: nil is
    returned and, whatever the relocation gate says, nothing else is asked
    of the service and no reparent request is made. *)
Theorem ValidateAccountOU_direct_child fuel c account poolOU s out parent :
  IsBYOC account = false → IsOwnedByAccountPool account = false →
  AwsAccountID (Spec account) ≠ "" →
  (ListParents c {| ChildId := Some (AwsAccountID (Spec account)) |} (aws s)).1
    = (Some out, None) →
  Parents out = [Some parent] → Id parent = Some poolOU →
  ValidateAccountOU (S fuel) (Some c) account poolOU s =
    (Return None, afterListParents c (AwsAccountID (Spec account)) s) ∧
  calls (afterListParents c (AwsAccountID (Spec account)) s) =
    calls s ++ [parentQuery c (AwsAccountID (Spec account)) s].
Proof.
  intros Hbyoc Hpool Hid Hq Hps Hparent. split; [|reflexivity].
  unfold ValidateAccountOU. rewrite Hbyoc, Hpool.
  rewrite (bind_Return _ _ _ true (afterListParents c (AwsAccountID (Spec account)) s));
    [reflexivity|].
  rewrite (IsAccountInPoolOU_walk_path _ _ _ _ _ [poolOU]
             (afterListParents c (AwsAccountID (Spec account)) s)); [reflexivity|done|].
  rewrite walk_unfold, Hq, Hps, Hparent, String.eqb_refl. reflexivity.
Qed.

(** A mover that returns an error returns the error that its last call was
    answered with. *)
Lemma MoveAccount_error awsAccountId client targetOU (moveAccount : bool) s e s' :
  MoveAccount awsAccountId client targetOU moveAccount s = (Return (Some e), s') →
  ∃ before call, calls s' = before ++ [call] ∧ callError call = Some e.
Proof.
  destruct client as [c|]; [|discriminate].
  rewrite MoveAccount_unfold.
  destruct (ListParents c {| ChildId := Some awsAccountId |} (aws s))
    as [[[out|] [e0|]] w] eqn:Hq; cbn [fst snd]; try discriminate.
  1,3: intros [= <- <-]; eexists _, _; split; [apply calls_parentQuery|];
       unfold parentQuery; by rewrite Hq.
  destruct out as [[|[[[oldOu|]]|] ps]]; cbn [Parents Id]; try discriminate.
  destruct moveAccount; [|discriminate].
  intros [= He <-]. eexists _, _. split; [apply calls_called|]. exact He.
Qed.

(** X9. An error of the OU check is always classified.  It is
    [InvalidAccount], with the state untouched, for a bring-your-own-cloud
    account (first) and for an account owned by the pool; otherwise it is
    [AccountMoveFailed] and wraps, message included, the error that the last
    call to the service was answered with. *)
Theorem ValidateAccountOU_errors fuel awsClient account poolOU s e s' :
  ValidateAccountOU fuel awsClient account poolOU s = (Return (Some e), s') →
  (IsBYOC account = true ∧ s' = s ∧
   e = AccountValidationError InvalidAccount (errorString "Account is a CCS account")) ∨
  (IsBYOC account = false ∧ IsOwnedByAccountPool account = true ∧ s' = s ∧
   e = AccountValidationError InvalidAccount (errorString "Account is in an account pool")) ∨
  (IsBYOC account = false ∧ IsOwnedByAccountPool account = false ∧
   ∃ inner before call,
     e = AccountValidationError AccountMoveFailed inner ∧ Error e = Error inner ∧
     calls s' = before ++ [call] ∧ callError call = Some inner).
Proof.
  unfold ValidateAccountOU.
  destruct (IsBYOC account); [intros [= <- <-]; by left|].
  destruct (IsOwnedByAccountPool account); [intros [= <- <-]; right; by left|].
  intros Hrun. right; right. split; [done|]. split; [done|].
  rewrite bind_run in Hrun.
  destruct (IsAccountInPoolOU _ _ _ _ s) as [[[|]| |] s1]; try discriminate Hrun.
  rewrite bind_run in Hrun. unfold getAccountMoveEnabled in Hrun. rewrite bind_run in Hrun.
  destruct (MoveAccount _ _ _ _ s1) as [[[inner|]| |] s2] eqn:Hmove; try discriminate Hrun.
  injection Hrun as <- <-.
  apply MoveAccount_error in Hmove as (before & call & ? & ?).
  by exists inner, before, call.
Qed.

(** X10. For an account in scope that has no identifier, the OU check makes
    no membership query but still goes to the mover: the first thing it asks
    the service is the parents of the empty identifier. *)
Theorem ValidateAccountOU_no_identifier fuel c account poolOU s :
  IsBYOC account = false → IsOwnedByAccountPool account = false →
  AwsAccountID (Spec account) = "" →
  ∃ rest,
    calls (ValidateAccountOU fuel (Some c) account poolOU s).2 =
    calls s ++ parentQuery c "" s :: rest.
Proof.
  intros Hbyoc Hpool Hid. unfold ValidateAccountOU. rewrite Hbyoc, Hpool.
  erewrite bind_Return by (by apply IsAccountInPoolOU_no_id).
  cbn match. rewrite bind_run. unfold getAccountMoveEnabled. rewrite bind_run, Hid.
  rewrite MoveAccount_unfold.
  destruct (ListParents c {| ChildId := Some "" |} (aws s)) as [[[out|] [e|]] w] eqn:Hq;
    cbn [fst snd]; try (exists []; apply calls_parentQuery).
  destruct out as [[|[[[oldOu|]]|] ps]]; cbn [Parents Id];
    try (exists []; apply calls_parentQuery).
  destruct (accountMoveEnabled s); [|exists []; apply calls_parentQuery].
  eexists [_].
  destruct (MoveAccount_ c _ _).1; cbv [mret Go_ret]; cbn [snd];
    unfold afterMoveAccount;
    rewrite calls_called, calls_parentQuery, <- app_assoc; reflexivity.
Qed.

(** X12. Suppose the service keeps its word on reparenting: after a
    reparent request that it accepted, it answers the parent query about
    that account with the destination alone.  Then after a move that
    returned nil with the gate on, the membership check against the target
    OU answers true. *)
Theorem MoveAccount_then_in_pool fuel c account targetOU s s' :
  (∀ input w w' a dst,
     MoveAccount_ c input w = (None, w') →
     AccountId input = Some a → DestinationParentId input = Some dst →
     ∃ w'', ListParents c {| ChildId := Some a |} w'
              = ((Some (parentsOutput [dst]), None), w'')) →
  AwsAccountID (Spec account) ≠ "" →
  MoveAccount (AwsAccountID (Spec account)) (Some c) targetOU true s = (Return None, s') →
  (IsAccountInPoolOU (S fuel) account (Some c) (λ x, (x =? targetOU)%string) s').1
    = Return true.
Proof.
  intros Hlaw Hid Hmove. rewrite MoveAccount_unfold in Hmove.
  destruct (ListParents c {| ChildId := Some (AwsAccountID (Spec account)) |} (aws s))
    as [[[out|] [e|]] w] eqn:Hq; cbn [fst snd] in Hmove; try discriminate Hmove.
  destruct out as [[|[[[oldOu|]]|] ps]]; cbn [Parents Id] in Hmove; try discriminate Hmove.
  cbv zeta in Hmove. unfold afterMoveAccount in Hmove.
  remember (afterListParents c (AwsAccountID (Spec account)) s) as s1 eqn:Hs1. clear Hs1.
  destruct (MoveAccount_ c _ (aws s1)) as [err w'] eqn:Hreq.
  cbn [fst snd] in Hmove. injection Hmove as -> <-.
  destruct (Hlaw _ _ _ _ _ Hreq eq_refl eq_refl) as [w'' Hans].
  match goal with |- (IsAccountInPoolOU _ _ _ _ ?s2).1 = _ => set (s' := s2) end.
  assert (Hwalk : ParentsTillPredicate (S fuel) (AwsAccountID (Spec account)) (Some c)
                    (λ x, (x =? targetOU)%string) [] s' =
                  (Return (None, [targetOU]),
                   afterListParents c (AwsAccountID (Spec account)) s')).
  { erewrite walk_one_parent by exact Hans. by rewrite String.eqb_refl. }
  by rewrite (IsAccountInPoolOU_walk_path _ _ _ _ _ _ _ Hid Hwalk).
Qed.

(** ** The owner tag among several *)

Lemma scanTags_before_owner shardName (before : list (string * string)) value
    (rest : list (option Tag)) s :
  "owner" ∉ before.*1 →
  scanTags shardName
    (tagList before ++ Some {| Key := Some "owner"; Value := Some value |} :: rest) s =
  if (shardName =? value)%string then (Return None, s)
  else (Return (Some (AccountValidationError IncorrectOwnerTag
                        (errorString "Account is not tagged with the correct owner"))), s).
Proof.
  induction before as [|[k v] before IH]; intros Hnot.
  - cbn [tagList fmap list_fmap app]. rewrite scanTags_cons. reflexivity.
  - change (tagList ((k, v) :: before) ++ ?l)
      with (Some {| Key := Some k; Value := Some v |} :: (tagList before ++ l)).
    rewrite scanTags_cons.
    destruct (String.eqb_spec ownerKey k) as [<-|Hne].
    + exfalso. apply Hnot. by left.
    + apply IH. intros Hin. apply Hnot. by right.
Qed.

(** X13. The tag check decides on the first tag whose key is owner and looks
    no further: whatever follows it in the answer, be it a second owner tag
    or a nil entry, the result is nil when its value is the expected owner
    and [IncorrectOwnerTag] when it is not. *)
Theorem ValidateAccountTags_first_owner c accountId shardName (accountTagEnabled : bool) s
    (before : list (string * string)) value (rest : list (option Tag)) w :
  ListTagsForResource c {| ResourceId := accountId |} (aws s) =
    ((Some {| Tags := tagList before ++
                       Some {| Key := Some "owner"; Value := Some value |} :: rest |},
      None), w) →
  "owner" ∉ before.*1 →
  (ValidateAccountTags (Some c) accountId shardName accountTagEnabled s).1 =
  Return (if (shardName =? value)%string then None
          else Some (AccountValidationError IncorrectOwnerTag
                       (errorString "Account is not tagged with the correct owner"))).
Proof.
  intros Hq Hnot. unfold ValidateAccountTags.
  rewrite bind_run, callListTagsForResource_run, Hq. cbn [fst snd]. go_run.
  rewrite scanTags_before_owner by done.
  by destruct (shardName =? value)%string.
Qed.


(** ** Feature gates during the checks *)

Lemma keepsGates_ret {A : Type} (a : A) : keepsGates (W:=W) (mret a).
Proof. by intros s. Qed.

Lemma keepsGates_raise {A : Type} (p : panic) : keepsGates (W:=W) (A:=A) (raise p).
Proof. by intros s. Qed.

Lemma keepsGates_bind {A B : Type} (m : Go (W:=W) A) (f : A → Go (W:=W) B) :
  keepsGates m → (∀ a, keepsGates (f a)) → keepsGates (m ≫= f).
Proof.
  intros Hm Hf s. rewrite bind_run. specialize (Hm s).
  destruct (m s) as [[a| |] s1]; cbn [snd] in *; [|done..].
  destruct (Hf a s1) as [-> ->]. exact Hm.
Qed.

Lemma keepsGates_deref {A : Type} (p : option A) : keepsGates (W:=W) (deref p).
Proof. destruct p; [apply keepsGates_ret|apply keepsGates_raise]. Qed.

Lemma keepsGates_index {A : Type} (l : list A) i : keepsGates (W:=W) (index l i).
Proof. unfold index. destruct (l !! i); [apply keepsGates_ret|apply keepsGates_raise]. Qed.

Lemma keepsGates_perform {A : Type} (f : W → A * W) (log : A → Call) :
  keepsGates (W:=W) (perform f log).
Proof. intros s. unfold perform. by destruct (f (aws s)). Qed.

Lemma keepsGates_callListParents client input : keepsGates (W:=W) (callListParents client input).
Proof.
  apply keepsGates_bind; [apply keepsGates_deref|intros; apply keepsGates_perform].
Qed.

Lemma keepsGates_callMoveAccount client input : keepsGates (W:=W) (callMoveAccount client input).
Proof.
  apply keepsGates_bind; [apply keepsGates_deref|intros; apply keepsGates_perform].
Qed.

Lemma keepsGates_callListTagsForResource client input :
  keepsGates (W:=W) (callListTagsForResource client input).
Proof.
  apply keepsGates_bind; [apply keepsGates_deref|intros; apply keepsGates_perform].
Qed.

Lemma keepsGates_ParentsTillPredicate fuel awsId client (p : string → bool) parents :
  keepsGates (W:=W) (ParentsTillPredicate fuel awsId client p parents).
Proof.
  revert awsId parents. induction fuel as [|fuel IH]; intros awsId parents; [by intros s|].
  cbn [ParentsTillPredicate].
  apply keepsGates_bind; [apply keepsGates_callListParents|].
  intros [out [e|]]; [apply keepsGates_ret|].
  apply keepsGates_bind; [apply keepsGates_deref|]. intros o.
  destruct (length (Parents o) =? 0)%nat; [apply keepsGates_ret|].
  destruct (1 <? length (Parents o))%nat; [apply keepsGates_ret|].
  apply keepsGates_bind; [apply keepsGates_index|]. intros parent.
  apply keepsGates_bind; [apply keepsGates_deref|]. intros parent'.
  apply keepsGates_bind; [apply keepsGates_deref|]. intros id.
  destruct (p id); [apply keepsGates_ret|apply IH].
Qed.

Lemma keepsGates_IsAccountInPoolOU fuel account client (isPoolOU : string → bool) :
  keepsGates (W:=W) (IsAccountInPoolOU fuel account client isPoolOU).
Proof.
  unfold IsAccountInPoolOU.
  destruct (AwsAccountID (Spec account) =? "")%string; [apply keepsGates_ret|].
  apply keepsGates_bind; [apply keepsGates_ParentsTillPredicate|].
  intros [[e|] path]; [apply keepsGates_ret|].
  destruct (length path =? 1)%nat; apply keepsGates_ret.
Qed.

Lemma keepsGates_MoveAccount awsAccountId client targetOU (moveAccount : bool) :
  keepsGates (W:=W) (MoveAccount awsAccountId client targetOU moveAccount).
Proof.
  unfold MoveAccount.
  apply keepsGates_bind; [apply keepsGates_callListParents|].
  intros [out [e|]]; [apply keepsGates_ret|].
  apply keepsGates_bind; [apply keepsGates_deref|]. intros o.
  apply keepsGates_bind; [apply keepsGates_index|]. intros parent.
  apply keepsGates_bind; [apply keepsGates_deref|]. intros parent'.
  destruct moveAccount.
  - apply keepsGates_bind; [apply keepsGates_deref|]. intros _.
    apply keepsGates_bind; [apply keepsGates_callMoveAccount|].
    intros [e|]; apply keepsGates_ret.
  - apply keepsGates_bind; [apply keepsGates_deref|]. intros _. apply keepsGates_ret.
Qed.

Lemma keepsGates_scanTags shardName (tags : list (option Tag)) :
  keepsGates (W:=W) (scanTags shardName tags).
Proof.
  induction tags as [|tag tags IH]; [apply keepsGates_ret|].
  cbn [scanTags].
  apply keepsGates_bind; [apply keepsGates_deref|]. intros t.
  apply keepsGates_bind; [apply keepsGates_deref|]. intros key.
  destruct (ownerKey =? key)%string; [|exact IH].
  apply keepsGates_bind; [apply keepsGates_deref|]. intros value.
  destruct (negb (shardName =? value)%string); apply keepsGates_ret.
Qed.

Lemma keepsGates_ValidateAccountTags client accountId shardName (accountTagEnabled : bool) :
  keepsGates (W:=W) (ValidateAccountTags client accountId shardName accountTagEnabled).
Proof.
  unfold ValidateAccountTags.
  apply keepsGates_bind; [apply keepsGates_callListTagsForResource|].
  intros [resp [e|]]; [apply keepsGates_ret|].
  apply keepsGates_bind; [apply keepsGates_deref|]. intros o. apply keepsGates_scanTags.
Qed.

Lemma keepsGates_ValidateAccountOU fuel awsClient account poolOU :
  keepsGates (W:=W) (ValidateAccountOU fuel awsClient account poolOU).
Proof.
  unfold ValidateAccountOU.
  destruct (IsBYOC account); [apply keepsGates_ret|].
  destruct (IsOwnedByAccountPool account); [apply keepsGates_ret|].
  apply keepsGates_bind; [apply keepsGates_IsAccountInPoolOU|].
  intros [|]; [apply keepsGates_ret|].
  apply keepsGates_bind; [by intros s|]. intros enabled.
  apply keepsGates_bind; [apply keepsGates_MoveAccount|].
  intros [e|]; apply keepsGates_ret.
Qed.

Lemma keepsGates_runChecks fuel r account cm : keepsGates (W:=W) (runChecks fuel r account cm).
Proof.
  unfold runChecks. destruct (GetClient r) as [awsClient ?].
  assert (Htags : keepsGates (W:=W)
    (getAccountTagEnabled ≫= λ tagEnabled,
       ValidateAccountTags awsClient (Some (AwsAccountID (Spec account)))
         (shardName r) tagEnabled ≫= λ err,
       match err with
       | Some e =>
         match asAccountValidationError e with
         | Some (t, _) =>
           if ValidationError_eqb t MissingTag || ValidationError_eqb t IncorrectOwnerTag
           then mret DoNotRequeue else mret DoNotRequeue
         | None => mret DoNotRequeue
         end
       | None => mret DoNotRequeue
       end)).
  { apply keepsGates_bind; [by intros s|]. intros tagEnabled.
    apply keepsGates_bind; [apply keepsGates_ValidateAccountTags|].
    intros [e|]; [|apply keepsGates_ret].
    destruct (asAccountValidationError e) as [[t ?]|]; [|apply keepsGates_ret].
    destruct (_ || _); apply keepsGates_ret. }
  apply keepsGates_bind; [apply keepsGates_ValidateAccountOU|].
  intros [e|]; [|exact Htags].
  destruct (asAccountValidationError e) as [[t ?]|]; [|exact Htags].
  destruct (ValidationError_eqb t InvalidAccount); [apply keepsGates_ret|].
  destruct (ValidationError_eqb t AccountMoveFailed); [apply keepsGates_ret|exact Htags].
Qed.

Lemma loadFeatureGates_move_gate cm s :
  accountMoveEnabled (loadFeatureGates cm s).2 =
  default (accountMoveEnabled s)
    (ParseBool (mapIndex (Data cm) "feature.validation_move_account")).
Proof.
  unfold loadFeatureGates. rewrite bind_run.
  destruct (ParseBool (mapIndex (Data cm) "feature.validation_move_account"));
    destruct (ParseBool (mapIndex (Data cm) "feature.validation_tag_account"));
    reflexivity.
Qed.

(** X16. The relocation gate lives on between reconciliations: once a run
    has read it from a config map, a later run whose config map no longer
    has the key still loads, and ends with, the value of the earlier run,
    whatever the two runs met on their way. *)
Theorem relocation_gate_across_runs fuel1 fuel2 r1 r2 request1 request2 s
    account1 cm1 account2 cm2 (b : bool) :
  Get r1 request1 = inl account1 → GetOperatorConfigMap r1 = inl cm1 →
  ParseBool (mapIndex (Data cm1) "feature.validation_move_account") = Some b →
  Get r2 request2 = inl account2 → GetOperatorConfigMap r2 = inl cm2 →
  Data cm2 !! "feature.validation_move_account" = None →
  accountMoveEnabled (Reconcile fuel1 r1 request1 s).2 = b ∧
  accountMoveEnabled (loadFeatureGates cm2 (Reconcile fuel1 r1 request1 s).2).2 = b ∧
  accountMoveEnabled
    (Reconcile fuel2 r2 request2 (Reconcile fuel1 r1 request1 s).2).2 = b.
Proof.
  intros Hget1 Hcm1 Hparse Hget2 Hcm2 Habsent.
  assert (Hrun : ∀ fuel r request account cm s0,
    Get r request = inl account → GetOperatorConfigMap r = inl cm →
    accountMoveEnabled (Reconcile fuel r request s0).2 =
    accountMoveEnabled (loadFeatureGates cm s0).2).
  { intros fuel r request account cm s0 Hget Hcm.
    rewrite (Reconcile_runChecks _ _ _ _ _ _ Hget Hcm).
    apply keepsGates_runChecks. }
  assert (Hfirst : accountMoveEnabled (Reconcile fuel1 r1 request1 s).2 = b).
  { rewrite (Hrun _ _ _ _ _ _ Hget1 Hcm1), loadFeatureGates_move_gate, Hparse. done. }
  assert (Hload : accountMoveEnabled
            (loadFeatureGates cm2 (Reconcile fuel1 r1 request1 s).2).2 = b).
  { rewrite loadFeatureGates_move_gate. unfold mapIndex at 1. rewrite Habsent. exact Hfirst. }
  split; [exact Hfirst|]. split; [exact Hload|].
  by rewrite (Hrun _ _ _ _ _ _ Hget2 Hcm2).
Qed.

(** ** What a reconciliation answers *)

(** X15. A reconciliation that cannot fetch the account answers no-requeue,
    and one that cannot fetch the config map answers requeue after five
    minutes, both with the state untouched.  Any reconciliation that
    returns answers no-requeue or requeue after five minutes, and the latter
    only when the config map could not be fetched or the OU check ended in
    [AccountMoveFailed]: an error of the tag query itself is not retried. *)
Theorem Reconcile_answers fuel r request s :
  (∀ e, Get r request = inr e → Reconcile fuel r request s = (Return DoNotRequeue, s)) ∧
  (∀ account e, Get r request = inl account → GetOperatorConfigMap r = inr e →
     Reconcile fuel r request s = (Return (RequeueAfter 300000000000%Z), s)) ∧
  (∀ result s', Reconcile fuel r request s = (Return result, s') →
     result = DoNotRequeue ∨
     result = RequeueAfter 300000000000%Z ∧
     ((∃ account e, Get r request = inl account ∧ GetOperatorConfigMap r = inr e) ∨
      (∃ account cm e,
         Get r request = inl account ∧ GetOperatorConfigMap r = inl cm ∧
         ValidateAccountOU fuel (GetClient r).1 account (mapIndex (Data cm) "root")
           (loadFeatureGates cm s).2 =
         (Return (Some (AccountValidationError AccountMoveFailed e)), s')))).
Proof.
  split; [intros e Hget; unfold Reconcile; by rewrite Hget|].
  split; [intros account e Hget Hcm; unfold Reconcile; by rewrite Hget, Hcm|].
  intros result s'.
  destruct (Get r request) as [account|e] eqn:Hget;
    [|unfold Reconcile; rewrite Hget; intros [= <- <-]; by left].
  destruct (GetOperatorConfigMap r) as [cm|e] eqn:Hcm.
  2:{ unfold Reconcile; rewrite Hget, Hcm. intros [= <- <-]. right. split; [done|].
      left. by eexists _, _. }
  rewrite (Reconcile_runChecks _ _ _ _ _ _ Hget Hcm). unfold runChecks.
  destruct (GetClient r) as [awsClient ?]. cbn [fst].
  assert (Htags : ∀ s1,
    (getAccountTagEnabled ≫= λ tagEnabled,
       ValidateAccountTags awsClient (Some (AwsAccountID (Spec account)))
         (shardName r) tagEnabled ≫= λ err,
       match err with
       | Some e =>
         match asAccountValidationError e with
         | Some (t, _) =>
           if ValidationError_eqb t MissingTag || ValidationError_eqb t IncorrectOwnerTag
           then mret DoNotRequeue else mret DoNotRequeue
         | None => mret DoNotRequeue
         end
       | None => mret DoNotRequeue
       end) s1 = (Return result, s') → result = DoNotRequeue).
  { intros s1. rewrite bind_run. unfold getAccountTagEnabled. rewrite bind_run.
    destruct (ValidateAccountTags _ _ _ _ s1) as [[[e|]| |] s2]; try discriminate.
    - destruct (asAccountValidationError e) as [[t ?]|]; [|by intros [= <- _]].
      destruct (_ || _); by intros [= <- _].
    - by intros [= <- _]. }
  rewrite bind_run.
  destruct (ValidateAccountOU _ _ _ _ _) as [[[e|]| |] s1] eqn:Hou; try discriminate.
  2:{ intros Hrun. left. by eapply Htags. }
  destruct e as [msg|t inner]; cbn [asAccountValidationError].
  { intros Hrun. left. by eapply Htags. }
  destruct t; cbn [ValidationError_eqb].
  - intros [= <- _]. by left.
  - intros [= <- <-]. right. split; [done|]. right. by eexists _, _, _.
  - intros Hrun. left. by eapply Htags.
  - intros Hrun. left. by eapply Htags.
Qed.

(** X17. The error of the client builder is only logged: when the builder
    hands back a nil client, the reconciliation of an account in scope
    panics on the first use of the client, before any call is made. *)
Theorem Reconcile_nil_client fuel r request account cm s :
  Get r request = inl account → GetOperatorConfigMap r = inl cm →
  (GetClient r).1 = None →
  IsBYOC account = false → IsOwnedByAccountPool account = false →
  Reconcile (S fuel) r request s = (Panics NilDereference, (loadFeatureGates cm s).2) ∧
  calls (loadFeatureGates cm s).2 = calls s.
Proof.
  intros Hget Hcm Hnil Hbyoc Hpool.
  split; [|apply loadFeatureGates_frame].
  rewrite (Reconcile_runChecks _ _ _ _ _ _ Hget Hcm). unfold runChecks.
  destruct (GetClient r) as [awsClient ?]. cbn [fst] in Hnil. subst awsClient.
  unfold ValidateAccountOU, IsAccountInPoolOU. rewrite Hbyoc, Hpool.
  destruct (AwsAccountID (Spec account) =? "")%string; reflexivity.
Qed.


(** ** Reparent requests *)

Lemma makesNo_ret {A : Type} P (a : A) : makesNo (W:=W) P (mret a).
Proof. by intros s. Qed.

Lemma makesNo_raise {A : Type} P (p : panic) : makesNo (W:=W) (A:=A) P (raise p).
Proof. by intros s. Qed.

Lemma makesNo_bind {A B : Type} P (m : Go (W:=W) A) (f : A → Go (W:=W) B) :
  makesNo P m → (∀ a, makesNo P (f a)) → makesNo P (m ≫= f).
Proof.
  intros Hm Hf s. rewrite bind_run. specialize (Hm s).
  destruct (m s) as [[a| |] s1]; cbn [snd] in *; [|done..].
  by rewrite Hf.
Qed.

Lemma makesNo_deref {A : Type} P (p : option A) : makesNo (W:=W) P (deref p).
Proof. destruct p; [apply makesNo_ret|apply makesNo_raise]. Qed.

Lemma makesNo_index {A : Type} P (l : list A) i : makesNo (W:=W) P (index l i).
Proof. unfold index. destruct (l !! i); [apply makesNo_ret|apply makesNo_raise]. Qed.

Lemma makesNo_perform {A : Type} P (f : W → A * W) (log : A → Call) :
  (∀ r, P (log r) = false) → makesNo P (perform f log).
Proof.
  intros Hlog s. unfold perform. destruct (f (aws s)) as [r w]. cbn [snd].
  rewrite calls_called, List.filter_app. simpl. rewrite Hlog. by rewrite app_nil_r.
Qed.

Lemma makesNo_callListParents P client input :
  (∀ out err, P (CallListParents input out err) = false) →
  makesNo P (callListParents client input).
Proof.
  intros HP. apply makesNo_bind; [apply makesNo_deref|].
  intros c. apply makesNo_perform. by intros [? ?].
Qed.

Lemma makesNo_callListTagsForResource P client input :
  (∀ out err, P (CallListTagsForResource input out err) = false) →
  makesNo P (callListTagsForResource client input).
Proof.
  intros HP. apply makesNo_bind; [apply makesNo_deref|].
  intros c. apply makesNo_perform. by intros [? ?].
Qed.

Lemma makesNo_ParentsTillPredicate fuel awsId client (p : string → bool) parents :
  makesNo isMoveAccountCall (ParentsTillPredicate fuel awsId client p parents).
Proof.
  revert awsId parents. induction fuel as [|fuel IH]; intros awsId parents; [by intros s|].
  cbn [ParentsTillPredicate].
  apply makesNo_bind; [by apply makesNo_callListParents|].
  intros [out [e|]]; [apply makesNo_ret|].
  apply makesNo_bind; [apply makesNo_deref|]. intros o.
  destruct (length (Parents o) =? 0)%nat; [apply makesNo_ret|].
  destruct (1 <? length (Parents o))%nat; [apply makesNo_ret|].
  apply makesNo_bind; [apply makesNo_index|]. intros parent.
  apply makesNo_bind; [apply makesNo_deref|]. intros parent'.
  apply makesNo_bind; [apply makesNo_deref|]. intros id.
  destruct (p id); [apply makesNo_ret|apply IH].
Qed.

Lemma makesNo_IsAccountInPoolOU fuel account client (isPoolOU : string → bool) :
  makesNo isMoveAccountCall (IsAccountInPoolOU fuel account client isPoolOU).
Proof.
  unfold IsAccountInPoolOU.
  destruct (AwsAccountID (Spec account) =? "")%string; [apply makesNo_ret|].
  apply makesNo_bind; [apply makesNo_ParentsTillPredicate|].
  intros [[e|] path]; [apply makesNo_ret|].
  destruct (length path =? 1)%nat; apply makesNo_ret.
Qed.

Lemma makesNo_MoveAccount_dry_run awsAccountId client targetOU :
  makesNo isMoveAccountCall (MoveAccount awsAccountId client targetOU false).
Proof.
  unfold MoveAccount.
  apply makesNo_bind; [by apply makesNo_callListParents|].
  intros [out [e|]]; [apply makesNo_ret|].
  apply makesNo_bind; [apply makesNo_deref|]. intros o.
  apply makesNo_bind; [apply makesNo_index|]. intros parent.
  apply makesNo_bind; [apply makesNo_deref|]. intros parent'.
  apply makesNo_bind; [apply makesNo_deref|]. intros _. apply makesNo_ret.
Qed.

Lemma makesNo_scanTags P shardName (tags : list (option Tag)) :
  makesNo (W:=W) P (scanTags shardName tags).
Proof.
  induction tags as [|tag tags IH]; [apply makesNo_ret|].
  cbn [scanTags].
  apply makesNo_bind; [apply makesNo_deref|]. intros t.
  apply makesNo_bind; [apply makesNo_deref|]. intros key.
  destruct (ownerKey =? key)%string; [|exact IH].
  apply makesNo_bind; [apply makesNo_deref|]. intros value.
  destruct (negb (shardName =? value)%string); apply makesNo_ret.
Qed.

Lemma makesNo_ValidateAccountTags client accountId shardName (accountTagEnabled : bool) :
  makesNo isMoveAccountCall
    (ValidateAccountTags client accountId shardName accountTagEnabled).
Proof.
  unfold ValidateAccountTags.
  apply makesNo_bind; [by apply makesNo_callListTagsForResource|].
  intros [resp [e|]]; [apply makesNo_ret|].
  apply makesNo_bind; [apply makesNo_deref|]. intros o. apply makesNo_scanTags.
Qed.

(** X14. A reconciliation that finds the relocation gate off once the
    config map is read makes no reparent request, whatever the membership
    check answers and however the run ends. *)
Theorem Reconcile_gate_off_no_reparent fuel r request account cm s :
  Get r request = inl account → GetOperatorConfigMap r = inl cm →
  accountMoveEnabled (loadFeatureGates cm s).2 = false →
  List.filter isMoveAccountCall (calls (Reconcile fuel r request s).2) =
  List.filter isMoveAccountCall (calls s).
Proof.
  intros Hget Hcm Hoff.
  rewrite (Reconcile_runChecks _ _ _ _ _ _ Hget Hcm).
  destruct (loadFeatureGates_frame cm s) as [_ <-].
  remember (loadFeatureGates cm s).2 as s0 eqn:Hs0. clear Hs0 s.
  unfold runChecks. destruct (GetClient r) as [awsClient ?].
  assert (Htags : makesNo (W:=W) isMoveAccountCall
    (getAccountTagEnabled ≫= λ tagEnabled,
       ValidateAccountTags awsClient (Some (AwsAccountID (Spec account)))
         (shardName r) tagEnabled ≫= λ err,
       match err with
       | Some e =>
         match asAccountValidationError e with
         | Some (t, _) =>
           if ValidationError_eqb t MissingTag || ValidationError_eqb t IncorrectOwnerTag
           then mret DoNotRequeue else mret DoNotRequeue
         | None => mret DoNotRequeue
         end
       | None => mret DoNotRequeue
       end)).
  { apply makesNo_bind; [by intros s|]. intros tagEnabled.
    apply makesNo_bind; [apply makesNo_ValidateAccountTags|].
    intros [e|]; [|apply makesNo_ret].
    destruct (asAccountValidationError e) as [[t ?]|]; [|apply makesNo_ret].
    destruct (_ || _); apply makesNo_ret. }
  rewrite bind_run.
  assert (Hou : List.filter isMoveAccountCall
                  (calls (ValidateAccountOU fuel awsClient account
                            (mapIndex (Data cm) "root") s0).2) =
                List.filter isMoveAccountCall (calls s0)).
  { unfold ValidateAccountOU.
    destruct (IsBYOC account); [done|]. destruct (IsOwnedByAccountPool account); [done|].
    rewrite bind_run.
    pose proof (makesNo_IsAccountInPoolOU fuel account awsClient
                  (λ x, (x =? mapIndex (Data cm) "root")%string) s0) as Hin.
    pose proof (keepsGates_IsAccountInPoolOU fuel account awsClient
                  (λ x, (x =? mapIndex (Data cm) "root")%string) s0) as [Hgate _].
    destruct (IsAccountInPoolOU _ _ _ _ s0) as [[[|]| |] s1]; cbn [snd] in *; try done.
    rewrite bind_run. unfold getAccountMoveEnabled. rewrite Hgate, Hoff, bind_run.
    pose proof (makesNo_MoveAccount_dry_run (AwsAccountID (Spec account)) awsClient
                  (mapIndex (Data cm) "root") s1) as Hmove.
    destruct (MoveAccount _ _ _ false s1) as [[[e|]| |] s2];
      cbv [mret Go_ret]; cbn [snd] in *; congruence. }
  destruct (ValidateAccountOU _ _ _ _ s0) as [[err| |] s1]; cbn [snd] in *; try done.
  rewrite <- Hou.
  destruct err as [e|]; [|apply Htags].
  destruct (asAccountValidationError e) as [[t ?]|]; [|apply Htags].
  destruct (ValidationError_eqb t InvalidAccount); [done|].
  destruct (ValidationError_eqb t AccountMoveFailed); [done|apply Htags].
Qed.

(** X11. The mover has no check of its own for several parents.  For an
    account in scope that is listed with more than one parent, the walk
    fails, membership is denied, and with the gate on the OU check goes on
    to request the move away from the first parent listed: it makes the
    membership query, the query of the mover and the reparent request, in
    this order. *)
Theorem ValidateAccountOU_several_parents fuel c account poolOU s out out' parent rest oldOu :
  IsBYOC account = false → IsOwnedByAccountPool account = false →
  AwsAccountID (Spec account) ≠ "" →
  accountMoveEnabled s = true →
  (ListParents c {| ChildId := Some (AwsAccountID (Spec account)) |} (aws s)).1
    = (Some out, None) →
  1 < length (Parents out) →
  (ListParents c {| ChildId := Some (AwsAccountID (Spec account)) |}
     (aws (afterListParents c (AwsAccountID (Spec account)) s))).1 = (Some out', None) →
  Parents out' = Some parent :: rest → Id parent = Some oldOu →
  ∃ err,
    calls (ValidateAccountOU (S fuel) (Some c) account poolOU s).2 =
    calls s ++
    [parentQuery c (AwsAccountID (Spec account)) s;
     parentQuery c (AwsAccountID (Spec account))
       (afterListParents c (AwsAccountID (Spec account)) s);
     CallMoveAccount
       {| AccountId := Some (AwsAccountID (Spec account));
          DestinationParentId := Some poolOU;
          SourceParentId := Some oldOu |} err].
Proof.
  intros Hbyoc Hpool Hid Hon Hq Hlen Hq' Hps' Hparent.
  set (a := AwsAccountID (Spec account)) in *.
  set (s1 := afterListParents c a s) in *.
  assert (Hwalk : ParentsTillPredicate (S fuel) a (Some c) (λ x, (x =? poolOU)%string) [] s =
    (Return (Some (errorString ("More than 1 parents found for Id " +:+ a)), []), s1)).
  { destruct (ListParents c {| ChildId := Some a |} (aws s)) as [[o e] w] eqn:Hans.
    cbn [fst] in Hq. injection Hq as -> ->. by eapply walk_many_parents. }
  unfold ValidateAccountOU. rewrite Hbyoc, Hpool.
  rewrite (bind_Return _ _ _ false s1) by (by eapply IsAccountInPoolOU_walk_error).
  cbn match. rewrite bind_run. unfold getAccountMoveEnabled.
  assert (accountMoveEnabled s1 = true) as -> by exact Hon.
  rewrite bind_run. fold a. rewrite MoveAccount_unfold. fold s1.
  rewrite Hq', Hps', Hparent. cbv zeta.
  exists (MoveAccount_ c
            {| AccountId := Some a; DestinationParentId := Some poolOU;
               SourceParentId := Some oldOu |} (aws (afterListParents c a s1))).1.
  unfold afterMoveAccount.
  destruct (MoveAccount_ c _ _).1; cbv [mret Go_ret]; cbn [snd];
    rewrite calls_called; unfold s1;
    rewrite !calls_parentQuery, <- !app_assoc; reflexivity.
Qed.


(** ** The tagging gate *)

Lemma ignoresTagGate_ret {A : Type} (a : A) : ignoresTagGate (W:=W) (mret a).
Proof. by intros b s. Qed.

Lemma ignoresTagGate_raise {A : Type} (p : panic) : ignoresTagGate (W:=W) (A:=A) (raise p).
Proof. by intros b s. Qed.

Lemma ignoresTagGate_bind {A B : Type} (m : Go (W:=W) A) (f : A → Go (W:=W) B) :
  ignoresTagGate m → (∀ a, ignoresTagGate (f a)) → ignoresTagGate (m ≫= f).
Proof.
  intros Hm Hf b s. rewrite !bind_run, Hm.
  destruct (m s) as [[a| |] s1]; cbn [fst snd]; [apply Hf|done..].
Qed.

Lemma ignoresTagGate_deref {A : Type} (p : option A) : ignoresTagGate (W:=W) (deref p).
Proof. destruct p; [apply ignoresTagGate_ret|apply ignoresTagGate_raise]. Qed.

Lemma ignoresTagGate_index {A : Type} (l : list A) i : ignoresTagGate (W:=W) (index l i).
Proof.
  unfold index. destruct (l !! i); [apply ignoresTagGate_ret|apply ignoresTagGate_raise].
Qed.

Lemma ignoresTagGate_perform {A : Type} (f : W → A * W) (log : A → Call) :
  ignoresTagGate (perform f log).
Proof.
  intros b s. unfold perform.
  change (aws (setAccountTagEnabled b s).2) with (aws s).
  by destruct (f (aws s)).
Qed.

Lemma ignoresTagGate_callListParents client input :
  ignoresTagGate (callListParents client input).
Proof.
  apply ignoresTagGate_bind; [apply ignoresTagGate_deref|intros; apply ignoresTagGate_perform].
Qed.

Lemma ignoresTagGate_callMoveAccount client input :
  ignoresTagGate (callMoveAccount client input).
Proof.
  apply ignoresTagGate_bind; [apply ignoresTagGate_deref|intros; apply ignoresTagGate_perform].
Qed.

Lemma ignoresTagGate_callListTagsForResource client input :
  ignoresTagGate (callListTagsForResource client input).
Proof.
  apply ignoresTagGate_bind; [apply ignoresTagGate_deref|intros; apply ignoresTagGate_perform].
Qed.

Lemma ignoresTagGate_ParentsTillPredicate fuel awsId client (p : string → bool) parents :
  ignoresTagGate (ParentsTillPredicate fuel awsId client p parents).
Proof.
  revert awsId parents. induction fuel as [|fuel IH]; intros awsId parents; [by intros b s|].
  cbn [ParentsTillPredicate].
  apply ignoresTagGate_bind; [apply ignoresTagGate_callListParents|].
  intros [out [e|]]; [apply ignoresTagGate_ret|].
  apply ignoresTagGate_bind; [apply ignoresTagGate_deref|]. intros o.
  destruct (length (Parents o) =? 0)%nat; [apply ignoresTagGate_ret|].
  destruct (1 <? length (Parents o))%nat; [apply ignoresTagGate_ret|].
  apply ignoresTagGate_bind; [apply ignoresTagGate_index|]. intros parent.
  apply ignoresTagGate_bind; [apply ignoresTagGate_deref|]. intros parent'.
  apply ignoresTagGate_bind; [apply ignoresTagGate_deref|]. intros id.
  destruct (p id); [apply ignoresTagGate_ret|apply IH].
Qed.

Lemma ignoresTagGate_IsAccountInPoolOU fuel account client (isPoolOU : string → bool) :
  ignoresTagGate (IsAccountInPoolOU fuel account client isPoolOU).
Proof.
  unfold IsAccountInPoolOU.
  destruct (AwsAccountID (Spec account) =? "")%string; [apply ignoresTagGate_ret|].
  apply ignoresTagGate_bind; [apply ignoresTagGate_ParentsTillPredicate|].
  intros [[e|] path]; [apply ignoresTagGate_ret|].
  destruct (length path =? 1)%nat; apply ignoresTagGate_ret.
Qed.

Lemma ignoresTagGate_MoveAccount awsAccountId client targetOU (moveAccount : bool) :
  ignoresTagGate (MoveAccount awsAccountId client targetOU moveAccount).
Proof.
  unfold MoveAccount.
  apply ignoresTagGate_bind; [apply ignoresTagGate_callListParents|].
  intros [out [e|]]; [apply ignoresTagGate_ret|].
  apply ignoresTagGate_bind; [apply ignoresTagGate_deref|]. intros o.
  apply ignoresTagGate_bind; [apply ignoresTagGate_index|]. intros parent.
  apply ignoresTagGate_bind; [apply ignoresTagGate_deref|]. intros parent'.
  destruct moveAccount.
  - apply ignoresTagGate_bind; [apply ignoresTagGate_deref|]. intros _.
    apply ignoresTagGate_bind; [apply ignoresTagGate_callMoveAccount|].
    intros [e|]; apply ignoresTagGate_ret.
  - apply ignoresTagGate_bind; [apply ignoresTagGate_deref|]. intros _.
    apply ignoresTagGate_ret.
Qed.

Lemma ignoresTagGate_scanTags shardName (tags : list (option Tag)) :
  ignoresTagGate (W:=W) (scanTags shardName tags).
Proof.
  induction tags as [|tag tags IH]; [apply ignoresTagGate_ret|].
  cbn [scanTags].
  apply ignoresTagGate_bind; [apply ignoresTagGate_deref|]. intros t.
  apply ignoresTagGate_bind; [apply ignoresTagGate_deref|]. intros key.
  destruct (ownerKey =? key)%string; [|exact IH].
  apply ignoresTagGate_bind; [apply ignoresTagGate_deref|]. intros value.
  destruct (negb (shardName =? value)%string); apply ignoresTagGate_ret.
Qed.

Lemma ignoresTagGate_ValidateAccountTags client accountId shardName
    (accountTagEnabled : bool) :
  ignoresTagGate (ValidateAccountTags client accountId shardName accountTagEnabled).
Proof.
  unfold ValidateAccountTags.
  apply ignoresTagGate_bind; [apply ignoresTagGate_callListTagsForResource|].
  intros [resp [e|]]; [apply ignoresTagGate_ret|].
  apply ignoresTagGate_bind; [apply ignoresTagGate_deref|]. intros o.
  apply ignoresTagGate_scanTags.
Qed.

Lemma ignoresTagGate_ValidateAccountOU fuel awsClient account poolOU :
  ignoresTagGate (W:=W) (ValidateAccountOU fuel awsClient account poolOU).
Proof.
  unfold ValidateAccountOU.
  destruct (IsBYOC account); [apply ignoresTagGate_ret|].
  destruct (IsOwnedByAccountPool account); [apply ignoresTagGate_ret|].
  apply ignoresTagGate_bind; [apply ignoresTagGate_IsAccountInPoolOU|].
  intros [|]; [apply ignoresTagGate_ret|].
  apply ignoresTagGate_bind; [by intros b s|]. intros enabled.
  apply ignoresTagGate_bind; [apply ignoresTagGate_MoveAccount|].
  intros [e|]; apply ignoresTagGate_ret.
Qed.

Lemma ignoresTagGate_runChecks fuel r account cm :
  ignoresTagGate (W:=W) (runChecks fuel r account cm).
Proof.
  unfold runChecks. destruct (GetClient r) as [awsClient ?].
  assert (Htags : ignoresTagGate (W:=W)
    (getAccountTagEnabled ≫= λ tagEnabled,
       ValidateAccountTags awsClient (Some (AwsAccountID (Spec account)))
         (shardName r) tagEnabled ≫= λ err,
       match err with
       | Some e =>
         match asAccountValidationError e with
         | Some (t, _) =>
           if ValidationError_eqb t MissingTag || ValidationError_eqb t IncorrectOwnerTag
           then mret DoNotRequeue else mret DoNotRequeue
         | None => mret DoNotRequeue
         end
       | None => mret DoNotRequeue
       end)).
  { assert (Hk : ∀ flag, ignoresTagGate (W:=W)
      (ValidateAccountTags awsClient (Some (AwsAccountID (Spec account)))
         (shardName r) flag ≫= λ err,
       match err with
       | Some e =>
         match asAccountValidationError e with
         | Some (t, _) =>
           if ValidationError_eqb t MissingTag || ValidationError_eqb t IncorrectOwnerTag
           then mret DoNotRequeue else mret DoNotRequeue
         | None => mret DoNotRequeue
         end
       | None => mret DoNotRequeue
       end)).
    { intros flag.
      apply ignoresTagGate_bind; [apply ignoresTagGate_ValidateAccountTags|].
      intros [e|]; [|apply ignoresTagGate_ret].
      destruct (asAccountValidationError e) as [[t ?]|]; [|apply ignoresTagGate_ret].
      destruct (_ || _); apply ignoresTagGate_ret. }
    intros b s. rewrite (bind_run getAccountTagEnabled), (bind_run getAccountTagEnabled).
    unfold getAccountTagEnabled. cbv beta iota.
    rewrite (Hk _ b s). reflexivity. }
  apply ignoresTagGate_bind; [apply ignoresTagGate_ValidateAccountOU|].
  intros [e|]; [|exact Htags].
  destruct (asAccountValidationError e) as [[t ?]|]; [|exact Htags].
  destruct (ValidationError_eqb t InvalidAccount); [apply ignoresTagGate_ret|].
  destruct (ValidationError_eqb t AccountMoveFailed); [apply ignoresTagGate_ret|exact Htags].
Qed.

(** X18. The tagging gate is read and stored, and that is all: start a
    reconciliation with another value of the gate and with any other value
    under its key in the config map, and it ends in the same outcome, having
    made the same calls, with the service and the relocation gate in the
    same state. *)
Theorem tagging_gate_without_effect fuel (r : ValidateAccount (W:=W)) request cm
    (value : string) (b : bool) s :
  GetOperatorConfigMap r = inl cm →
  let r' := {| Get := Get r;
               GetOperatorConfigMap :=
                 inl {| Data := <["feature.validation_tag_account" := value]> (Data cm) |};
               GetClient := GetClient r;
               shardName := shardName r |} in
  let run := Reconcile fuel r request s in
  let run' := Reconcile fuel r' request (setAccountTagEnabled b s).2 in
  run'.1 = run.1 ∧ calls run'.2 = calls run.2 ∧ aws run'.2 = aws run.2 ∧
  accountMoveEnabled run'.2 = accountMoveEnabled run.2.
Proof.
  intros Hcm r' run run'. subst run run'.
  destruct (Get r request) as [account|e] eqn:Hget.
  2:{ unfold Reconcile. cbn [Get r']. rewrite Hget. done. }
  set (cm' := {| Data := <["feature.validation_tag_account" := value]> (Data cm) |}).
  rewrite (Reconcile_runChecks fuel r request account cm s Hget Hcm).
  rewrite (Reconcile_runChecks fuel r' request account cm' _ Hget eq_refl).
  assert (Hchecks : runChecks fuel r' account cm' = runChecks fuel r account cm).
  { unfold runChecks. cbn [GetClient shardName r' Data cm']. unfold mapIndex.
    by rewrite lookup_insert_ne. }
  rewrite Hchecks.
  assert (Hload : ∃ b', (loadFeatureGates cm' (setAccountTagEnabled b s).2).2 =
                        (setAccountTagEnabled b' (loadFeatureGates cm s).2).2).
  { unfold loadFeatureGates. rewrite !bind_run. cbn [Data cm']. unfold mapIndex.
    rewrite lookup_insert_ne by done. rewrite lookup_insert_eq.
    destruct (ParseBool (default "" (Data cm !! "feature.validation_move_account")));
      destruct (ParseBool (default "" (Some value)));
      destruct (ParseBool (default "" (Data cm !! "feature.validation_tag_account")));
      by eexists. }
  destruct Hload as [b' ->]. rewrite ignoresTagGate_runChecks.
  by destruct (runChecks fuel r account cm (loadFeatureGates cm s).2) as [? []].
Qed.

End Properties.

(** * Concrete runs on the mock organization *)

(** C1. The account 333333333333 sits directly under the root r-root and the
    pool OU is ou-pool, so its ancestors end in a root without meeting the
    pool OU.  [IsAccountInPoolOU] still answers true for it: the walk ends
    at the root with the one-entry path [r-root], and a path of length one
    counts as membership whether or not its entry is the pool OU. *)
Theorem IsAccountInPoolOU_account_under_root :
  disjointFromPool demoOracle "333333333333" "ou-pool" ["r-root"] ∧
  (IsAccountInPoolOU 5 (mkAccount "333333333333" false false) (Some orgClient)
     (λ s, (s =? "ou-pool")%string) demoState).1 = Return true ∧
  (ParentsTillPredicate 5 "333333333333" (Some orgClient)
     (λ s, (s =? "ou-pool")%string) [] demoState).1 = Return (None, ["r-root"]).
Proof.
  split; [|split; vm_compute; reflexivity].
  exists "r-root". split.
  - apply ancestry_cons; [reflexivity|apply ancestry_nil].
  - split; [reflexivity|]. intros Hin. apply list_elem_of_singleton in Hin. discriminate Hin.
Qed.

(** C8, as stated, fails: with the gate off, the mover passes on the error
    of a failed parent query instead of returning nil. *)
Lemma MoveAccount_dry_run_query_error :
  (MoveAccount "999999999999" (Some orgClient) "ou-pool" false demoState).1 =
    Return (Some (errorString "ChildNotFoundException")) ∧
  (MoveAccount "999999999999" (Some orgClient) "ou-pool" false demoState).1 ≠ Return None.
Proof. split; [vm_compute; reflexivity|vm_compute; discriminate]. Qed.

(** The account 111111111111 is a direct child of the pool OU. *)
Lemma IsAccountInPoolOU_cases_witness :
  IsAccountInPoolOU 5 (mkAccount "111111111111" false false) (Some orgClient)
    isDemoPool demoState =
  (Return (bool_decide (length ["ou-pool"] = 1)),
   afterListParents orgClient "111111111111" demoState) ∧
  IsAccountInPoolOU 5 (mkAccount "" false false) (Some orgClient) isDemoPool demoState =
  (Return false, demoState).
Proof.
  split.
  - destruct (IsAccountInPoolOU_cases 5 (mkAccount "111111111111" false false)
                (Some orgClient) isDemoPool demoState) as [_ Hid].
    destruct Hid as [_ Hpath]; [discriminate|].
    apply Hpath. vm_compute. reflexivity.
  - destruct (IsAccountInPoolOU_cases 5 (mkAccount "" false false)
                (Some orgClient) isDemoPool demoState) as [Hno _].
    apply Hno. reflexivity.
Defined.

(** The walk from 222222222222 on the oracle of the mock organization. *)
Lemma ParentsTillPredicate_walkAncestors_witness :
  (ParentsTillPredicate 5 "222222222222" (Some (oracleClient demoOracle)) isDemoPool []
     (initialState tt)).1 =
  match walkAncestors 5 demoOracle "222222222222" isDemoPool [] with
  | Some (path', fault) => Return (faultError <$> fault, path')
  | None => OutOfFuel
  end.
Proof.
  apply (ParentsTillPredicate_walkAncestors demoOracle (oracleClient demoOracle)).
  intros id w. exists w. reflexivity.
Defined.

(** The walk from 555555555555 climbs to ou-a, whose query reports two
    parents. *)
Lemma ParentsTillPredicate_multi_parent_witness :
  ParentsTillPredicate 2 "555555555555" (Some orgClient) isDemoPool []
    (initialState tangledOrg) =
  (Return (Some (errorString ("More than 1 parents found for Id " +:+ "ou-a")),
           [] ++ ["ou-a"]),
   afterListParents orgClient "ou-a"
     (afterListParents orgClient "555555555555" (initialState tangledOrg))) ∧
  calls (afterListParents orgClient "ou-a"
           (afterListParents orgClient "555555555555" (initialState tangledOrg))) =
  calls (afterListParents orgClient "555555555555" (initialState tangledOrg)) ++
  [parentQuery orgClient "ou-a"
     (afterListParents orgClient "555555555555" (initialState tangledOrg))].
Proof.
  apply (proj1 (ParentsTillPredicate_multi_parent 2 "555555555555" isDemoPool []
                  (initialState tangledOrg))
           orgClient ["ou-a"] "ou-a"
           (afterListParents orgClient "555555555555" (initialState tangledOrg))
           (parentsOutput ["r-1"; "r-2"])).
  - apply (climbs_up orgClient isDemoPool "555555555555" (initialState tangledOrg)
             (parentsOutput ["ou-a"]) {| Id := Some "ou-a" |} "ou-a" [] "ou-a").
    + vm_compute. reflexivity.
    + reflexivity.
    + reflexivity.
    + reflexivity.
    + apply climbs_here.
  - vm_compute. reflexivity.
  - simpl. lia.
  - simpl. lia.
Defined.

(** A bring-your-own-cloud account. *)
Lemma out_of_scope_account_witness :
  (∃ e, ValidateAccountOU 5 (Some orgClient) (mkAccount "111111111111" true false)
          "ou-pool" demoState =
        (Return (Some (AccountValidationError InvalidAccount e)), demoState)) ∧
  (∀ r request cm,
     Get r request = inl (mkAccount "111111111111" true false) →
     GetOperatorConfigMap r = inl cm →
     ∃ s', Reconcile 5 r request demoState = (Return DoNotRequeue, s') ∧
           calls s' = calls demoState ∧ aws s' = aws demoState).
Proof.
  apply (out_of_scope_account 5 (Some orgClient) (mkAccount "111111111111" true false)
           "ou-pool" demoState).
  left. reflexivity.
Defined.

(** The account 222222222222 with the relocation gate on: it is moved to the
    pool OU, its tag check fails on the owner, and the run is not requeued.
    The account 999999999999 is unknown to the service: the move fails and
    the run is requeued after five minutes. *)
Lemma Reconcile_requeue_witness :
  (Reconcile 5
     (demoReconciler (mkAccount "222222222222" false false)
        [("root", "ou-pool"); ("feature.validation_move_account", "true")])
     demoRequest demoState).1 = Return DoNotRequeue ∧
  (Reconcile 5
     (demoReconciler (mkAccount "999999999999" false false) [("root", "ou-pool")])
     demoRequest demoState).1 = Return (RequeueAfter 300000000000%Z).
Proof.
  split.
  2:{ pose proof (Reconcile_requeue 5
        (demoReconciler (mkAccount "999999999999" false false) [("root", "ou-pool")])
        demoRequest (mkAccount "999999999999" false false)
        {| Data := list_to_map [("root", "ou-pool")] |}
        demoState eq_refl eq_refl) as H.
      cbv zeta in H. destruct H as (_ & Hmove & _).
      edestruct Hmove as [-> _]; [|reflexivity].
      vm_compute. reflexivity. }
  pose proof (Reconcile_requeue 5
    (demoReconciler (mkAccount "222222222222" false false)
       [("root", "ou-pool"); ("feature.validation_move_account", "true")])
    demoRequest (mkAccount "222222222222" false false)
    {| Data := list_to_map
         [("root", "ou-pool"); ("feature.validation_move_account", "true")] |}
    demoState eq_refl eq_refl) as H.
  cbv zeta in H. destruct H as (_ & _ & Htag & _).
  erewrite (Htag _ IncorrectOwnerTag).
  - reflexivity.
  - vm_compute. reflexivity.
  - vm_compute. reflexivity.
  - right. reflexivity.
Defined.

(** The tag set of the account 111111111111, owned by shard1. *)
Lemma ValidateAccountTags_owner_witness :
  ∃ r,
    ValidateAccountTags (Some orgClient) (Some "111111111111") "shard1" false demoState =
      (Return r,
       called demoState demoOrg
         (CallListTagsForResource {| ResourceId := Some "111111111111" |}
            (Some {| Tags := tagList (map_to_list
                       (list_to_map [("team", "x"); ("owner", "shard1")]
                          : gmap string string)) |})
            None)) ∧
    (r = None ↔
     (list_to_map [("team", "x"); ("owner", "shard1")] : gmap string string) !! "owner"
       = Some "shard1") ∧
    (∀ value,
       (list_to_map [("team", "x"); ("owner", "shard1")] : gmap string string) !! "owner"
         = Some value →
       value ≠ "shard1" →
       r = Some (AccountValidationError IncorrectOwnerTag
                   (errorString "Account is not tagged with the correct owner"))) ∧
    ((list_to_map [("team", "x"); ("owner", "shard1")] : gmap string string) !! "owner"
       = None →
     r = Some (AccountValidationError MissingTag
                 (errorString "Account is not tagged with an owner"))).
Proof.
  apply (ValidateAccountTags_owner orgClient (Some "111111111111") "shard1" false demoState
           (list_to_map [("team", "x"); ("owner", "shard1")])
           (map_to_list (list_to_map [("team", "x"); ("owner", "shard1")]
                           : gmap string string))
           demoOrg).
  - reflexivity.
  - vm_compute. reflexivity.
Defined.

(** A dry run on the account 222222222222. *)
Lemma MoveAccount_reparent_calls_witness :
  ∃ made,
    calls (afterListParents orgClient "222222222222" demoState) = calls demoState ++ made ∧
    length (List.filter isMoveAccountCall made) ≤ 1 ∧
    (false = false →
     List.filter isMoveAccountCall made = [] ∧
     (∀ c o e w, Some orgClient = Some c →
        ListParents c {| ChildId := Some "222222222222" |} (aws demoState) = ((o, Some e), w) →
        Return (None : option error) = Return (Some e)) ∧
     (∀ c out parent oldOu rest w, Some orgClient = Some c →
        ListParents c {| ChildId := Some "222222222222" |} (aws demoState)
          = ((Some out, None), w) →
        Parents out = Some parent :: rest → Id parent = Some oldOu →
        Return (None : option error) = Return None)).
Proof.
  apply (MoveAccount_reparent_calls "222222222222" (Some orgClient) "ou-pool" false
           demoState).
  vm_compute. reflexivity.
Defined.

(** A config map without the gate keys, and one that turns the relocation
    gate on. *)
Lemma loadFeatureGates_sticky_witness :
  accountMoveEnabled
    (loadFeatureGates {| Data := list_to_map [("root", "ou-pool")] |} demoState).2 = false ∧
  accountMoveEnabled
    (loadFeatureGates
       {| Data := list_to_map [("feature.validation_move_account", "true")] |}
       demoState).2 = true.
Proof.
  split.
  - destruct (loadFeatureGates_sticky {| Data := list_to_map [("root", "ou-pool")] |}
                demoState) as (_ & _ & _ & Hkeep & _).
    rewrite Hkeep; [reflexivity|]. left. vm_compute. reflexivity.
  - destruct (loadFeatureGates_sticky
                {| Data := list_to_map [("feature.validation_move_account", "true")] |}
                demoState) as (_ & _ & _ & _ & Hset & _).
    apply Hset. vm_compute. reflexivity.
Defined.

(** The root of the mock organization has no parent. *)
Lemma MoveAccount_no_parent_panics_witness :
  MoveAccount "r-root" (Some orgClient) "ou-pool" false demoState =
  (Panics IndexOutOfRange,
   called demoState demoOrg
     (CallListParents {| ChildId := Some "r-root" |} (Some {| Parents := [] |}) None)).
Proof.
  apply (MoveAccount_no_parent_panics "r-root" orgClient "ou-pool" false demoState demoOrg).
  vm_compute. reflexivity.
Defined.

(** * Concrete runs for the further properties *)

(** The walk from 222222222222 ends at the root with both ancestors. *)
Lemma ParentsTillPredicate_path_witness :
  ∃ new, ["ou-other"; "r-root"] = [] ++ new ∧
    ∀ before x after, new = before ++ x :: after → isDemoPool x = true →
      after = [] ∧ (None : option error) = None.
Proof.
  apply (ParentsTillPredicate_path 5 "222222222222" (Some orgClient) isDemoPool []
           demoState None ["ou-other"; "r-root"]
           (afterListParents orgClient "r-root"
              (afterListParents orgClient "ou-other"
                 (afterListParents orgClient "222222222222" demoState)))).
  vm_compute. reflexivity.
Defined.

Lemma ParentsTillPredicate_queries_witness :
  ∃ made,
    calls (afterListParents orgClient "444444444444" demoState) = calls demoState ++ made ∧
    Forall (λ call, isListParentsCall call = true) made ∧
    (∀ call, head made = Some call → queriedChild call = Some "444444444444") ∧
    (∀ i call next, made !! i = Some call → made !! S i = Some next →
       ∃ id, answeredParent call = Some id ∧ isDemoPool id = false ∧
             queriedChild next = Some id) ∧
    (∀ err path,
       Return (Some (errorString "More than 1 parents found for Id 444444444444"),
               ([] : list string)) = Return (err, path) →
       path = [] ++ omap answeredParent made).
Proof.
  apply (ParentsTillPredicate_queries 5 "444444444444" (Some orgClient) isDemoPool []
           demoState).
  vm_compute. reflexivity.
Defined.

Lemma ParentsTillPredicate_reaches_root_witness :
  ∃ s', ParentsTillPredicate 3 "222222222222" (Some (oracleClient demoOracle)) isDemoPool
          [] (initialState tt) = (Return (None, [] ++ ["ou-other"; "r-root"]), s') ∧
        length (calls s') = length (calls (initialState tt)) + 3.
Proof.
  apply (ParentsTillPredicate_reaches_root demoOracle (oracleClient demoOracle)) with "r-root".
  - intros id w. exists w. reflexivity.
  - apply ancestry_cons; [reflexivity|].
    apply ancestry_cons; [reflexivity|]. apply ancestry_nil.
  - reflexivity.
  - intros x Hx. apply list_elem_of_In in Hx. simpl in Hx.
    destruct Hx as [<-|[<-|[]]]; reflexivity.
  - simpl. lia.
Defined.

Lemma ParentsTillPredicate_first_match_witness :
  ∃ s', ParentsTillPredicate 2 "222222222222" (Some (oracleClient demoOracle))
          (λ x, (x =? "r-root")%string) [] (initialState tt) =
          (Return (None, [] ++ ["ou-other"] ++ ["r-root"]), s') ∧
        length (calls s') = length (calls (initialState tt)) + 2.
Proof.
  apply (ParentsTillPredicate_first_match demoOracle (oracleClient demoOracle)).
  - intros id w. exists w. reflexivity.
  - apply ancestry_cons; [reflexivity|].
    apply ancestry_cons; [reflexivity|]. apply ancestry_nil.
  - intros y Hy. apply list_elem_of_In in Hy. simpl in Hy.
    destruct Hy as [<-|[]]. reflexivity.
  - reflexivity.
  - simpl. lia.
Defined.

(** A node that is its own parent. *)
Lemma ParentsTillPredicate_endless_witness :
  (ParentsTillPredicate 7 "ou-loop" (Some (oracleClient (λ x, [x]))) (λ _, false) []
     (initialState tt)).1 = OutOfFuel.
Proof.
  apply (ParentsTillPredicate_endless (λ x, [x]) (oracleClient (λ x, [x])) ).
  - intros id w. exists w. reflexivity.
  - intros x. exists x. split; reflexivity.
Defined.

(** The account directly under the root: true by the second situation. *)
Lemma IsAccountInPoolOU_true_iff_witness :
  (IsAccountInPoolOU 2 (mkAccount "333333333333" false false) (Some orgClient)
     isDemoPool demoState).1 = Return true.
Proof.
  apply (IsAccountInPoolOU_true_iff 0 (mkAccount "333333333333" false false) orgClient
           isDemoPool demoState).
  split; [discriminate|].
  exists (parentsOutput ["r-root"]), {| Id := Some "r-root" |}, "r-root".
  split; [vm_compute; reflexivity|]. split; [reflexivity|]. split; [reflexivity|].
  right. split; [reflexivity|].
  exists (parentsOutput []). split; [vm_compute; reflexivity|reflexivity].
Defined.

Lemma ValidateAccountOU_direct_child_witness :
  ValidateAccountOU 1 (Some orgClient) (mkAccount "111111111111" false false) "ou-pool"
    demoState =
    (Return None, afterListParents orgClient "111111111111" demoState) ∧
  calls (afterListParents orgClient "111111111111" demoState) =
    calls demoState ++ [parentQuery orgClient "111111111111" demoState].
Proof.
  apply (ValidateAccountOU_direct_child 0 orgClient (mkAccount "111111111111" false false)
           "ou-pool" demoState (parentsOutput ["ou-pool"]) {| Id := Some "ou-pool" |}).
  - reflexivity.
  - reflexivity.
  - discriminate.
  - vm_compute. reflexivity.
  - reflexivity.
  - reflexivity.
Defined.

(** An account that the service does not know: the mover's query fails. *)
Lemma ValidateAccountOU_errors_witness :
  ∃ inner before call,
    AccountValidationError AccountMoveFailed (errorString "ChildNotFoundException") =
      AccountValidationError AccountMoveFailed inner ∧
    Error (AccountValidationError AccountMoveFailed (errorString "ChildNotFoundException"))
      = Error inner ∧
    calls (afterListParents orgClient "999999999999"
             (afterListParents orgClient "999999999999" demoState)) = before ++ [call] ∧
    callError call = Some inner.
Proof.
  destruct (ValidateAccountOU_errors 5 (Some orgClient)
              (mkAccount "999999999999" false false) "ou-pool" demoState
              (AccountValidationError AccountMoveFailed (errorString "ChildNotFoundException"))
              (afterListParents orgClient "999999999999"
                 (afterListParents orgClient "999999999999" demoState)))
    as [Hbyoc|[Hpool|Hmove]].
  - vm_compute. reflexivity.
  - destruct Hbyoc as [Hbyoc _]. discriminate Hbyoc.
  - destruct Hpool as (_ & Hpool & _). discriminate Hpool.
  - destruct Hmove as (_ & _ & Hmove). exact Hmove.
Defined.

Lemma ValidateAccountOU_no_identifier_witness :
  ∃ rest,
    calls (ValidateAccountOU 5 (Some orgClient) (mkAccount "" false false) "ou-pool"
             demoState).2 =
    calls demoState ++ parentQuery orgClient "" demoState :: rest.
Proof.
  apply (ValidateAccountOU_no_identifier 5 orgClient (mkAccount "" false false) "ou-pool"
           demoState); reflexivity.
Defined.

(** The account with two parents, with the relocation gate on. *)
Lemma ValidateAccountOU_several_parents_witness :
  ∃ err,
    calls (ValidateAccountOU 1 (Some orgClient) (mkAccount "444444444444" false false)
             "ou-pool" (setAccountMoveEnabled true demoState).2).2 =
    calls (setAccountMoveEnabled true demoState).2 ++
    [parentQuery orgClient "444444444444" (setAccountMoveEnabled true demoState).2;
     parentQuery orgClient "444444444444"
       (afterListParents orgClient "444444444444" (setAccountMoveEnabled true demoState).2);
     CallMoveAccount
       {| AccountId := Some "444444444444";
          DestinationParentId := Some "ou-pool";
          SourceParentId := Some "ou-pool" |} err].
Proof.
  apply (ValidateAccountOU_several_parents 0 orgClient
           (mkAccount "444444444444" false false) "ou-pool"
           (setAccountMoveEnabled true demoState).2
           (parentsOutput ["ou-pool"; "ou-other"]) (parentsOutput ["ou-pool"; "ou-other"])
           {| Id := Some "ou-pool" |} [Some {| Id := Some "ou-other" |}] "ou-pool").
  - reflexivity.
  - reflexivity.
  - discriminate.
  - reflexivity.
  - vm_compute. reflexivity.
  - simpl. lia.
  - vm_compute. reflexivity.
  - reflexivity.
  - reflexivity.
Defined.

(** The mock service keeps its word on reparenting; the account
    222222222222 is moved to the pool OU and is then found there. *)
Lemma MoveAccount_then_in_pool_witness :
  (IsAccountInPoolOU 1 (mkAccount "222222222222" false false) (Some orgClient)
     (λ x, (x =? "ou-pool")%string)
     (afterMoveAccount orgClient
        {| AccountId := Some "222222222222";
           DestinationParentId := Some "ou-pool";
           SourceParentId := Some "ou-other" |}
        (afterListParents orgClient "222222222222" demoState))).1 = Return true.
Proof.
  apply (MoveAccount_then_in_pool 0 orgClient (mkAccount "222222222222" false false)
           "ou-pool" demoState).
  - intros input w w' a dst Hmove Ha Hdst. exists w'.
    cbn [MoveAccount_ ListParents orgClient] in *.
    unfold orgMoveAccount in Hmove. rewrite Ha, Hdst in Hmove.
    destruct (SourceParentId input) as [src|]; [|discriminate Hmove].
    destruct (parentsOf w !! a) as [[|p [|q ps]]|]; try discriminate Hmove.
    destruct (p =? src)%string; [|discriminate Hmove].
    injection Hmove as <-.
    unfold orgListParents. cbn [ChildId mbind option_bind parentsOf].
    rewrite lookup_insert_eq. reflexivity.
  - discriminate.
  - vm_compute. reflexivity.
Defined.

(** An answer with two owner tags and a nil entry after the first. *)
Lemma ValidateAccountTags_first_owner_witness :
  (ValidateAccountTags
     (Some (tagsClient
        (tagList [("team", "x")] ++
         Some {| Key := Some "owner"; Value := Some "shard1" |} ::
         [None; Some {| Key := Some "owner"; Value := Some "shard2" |}])))
     (Some "111111111111") "shard1" false (initialState tt)).1 =
  Return (if ("shard1" =? "shard1")%string then None
          else Some (AccountValidationError IncorrectOwnerTag
                       (errorString "Account is not tagged with the correct owner"))).
Proof.
  apply (ValidateAccountTags_first_owner _ (Some "111111111111") "shard1" false
           (initialState tt) [("team", "x")] "shard1"
           [None; Some {| Key := Some "owner"; Value := Some "shard2" |}] tt).
  - reflexivity.
  - intros Hin. apply list_elem_of_In in Hin. simpl in Hin.
    destruct Hin as [Hin|[]]. discriminate Hin.
Defined.

(** The account 222222222222 outside the pool, with no gate in the config
    map: nothing is moved. *)
Lemma Reconcile_gate_off_no_reparent_witness :
  List.filter isMoveAccountCall
    (calls (Reconcile 5
              (demoReconciler (mkAccount "222222222222" false false) [("root", "ou-pool")])
              demoRequest demoState).2) =
  List.filter isMoveAccountCall (calls demoState).
Proof.
  apply (Reconcile_gate_off_no_reparent 5
           (demoReconciler (mkAccount "222222222222" false false) [("root", "ou-pool")])
           demoRequest (mkAccount "222222222222" false false)
           {| Data := list_to_map [("root", "ou-pool")] |} demoState).
  - reflexivity.
  - reflexivity.
  - vm_compute. reflexivity.
Defined.

(** A reconciler that cannot fetch the account, and one that cannot fetch
    the config map. *)
Lemma Reconcile_answers_witness :
  Reconcile 5
    {| Get := λ _, inr (errorString "not found");
       GetOperatorConfigMap := inr (errorString "not found");
       GetClient := (Some orgClient, None);
       shardName := "shard1" |}
    demoRequest demoState = (Return DoNotRequeue, demoState) ∧
  Reconcile 5
    {| Get := λ _, inl (mkAccount "111111111111" false false);
       GetOperatorConfigMap := inr (errorString "not found");
       GetClient := (Some orgClient, None);
       shardName := "shard1" |}
    demoRequest demoState = (Return (RequeueAfter 300000000000%Z), demoState).
Proof.
  split.
  - destruct (Reconcile_answers 5
      {| Get := λ _, inr (errorString "not found");
         GetOperatorConfigMap := inr (errorString "not found");
         GetClient := (Some orgClient, None);
         shardName := "shard1" |} demoRequest demoState) as (Hget & _).
    apply (Hget (errorString "not found")). reflexivity.
  - destruct (Reconcile_answers 5
      {| Get := λ _, inl (mkAccount "111111111111" false false);
         GetOperatorConfigMap := inr (errorString "not found");
         GetClient := (Some orgClient, None);
         shardName := "shard1" |} demoRequest demoState) as (_ & Hcm & _).
    apply (Hcm (mkAccount "111111111111" false false) (errorString "not found"));
      reflexivity.
Defined.

(** A run with the relocation gate set to true, then a run whose config map
    has lost the key. *)
Lemma relocation_gate_across_runs_witness :
  accountMoveEnabled
    (Reconcile 5
       (demoReconciler (mkAccount "111111111111" false false)
          [("root", "ou-pool"); ("feature.validation_move_account", "true")])
       demoRequest demoState).2 = true ∧
  accountMoveEnabled
    (loadFeatureGates {| Data := list_to_map [("root", "ou-pool")] |}
       (Reconcile 5
          (demoReconciler (mkAccount "111111111111" false false)
             [("root", "ou-pool"); ("feature.validation_move_account", "true")])
          demoRequest demoState).2).2 = true ∧
  accountMoveEnabled
    (Reconcile 5
       (demoReconciler (mkAccount "222222222222" false false) [("root", "ou-pool")])
       demoRequest
       (Reconcile 5
          (demoReconciler (mkAccount "111111111111" false false)
             [("root", "ou-pool"); ("feature.validation_move_account", "true")])
          demoRequest demoState).2).2 = true.
Proof.
  apply (relocation_gate_across_runs 5 5
           (demoReconciler (mkAccount "111111111111" false false)
              [("root", "ou-pool"); ("feature.validation_move_account", "true")])
           (demoReconciler (mkAccount "222222222222" false false) [("root", "ou-pool")])
           demoRequest demoRequest demoState
           (mkAccount "111111111111" false false)
           {| Data := list_to_map
                [("root", "ou-pool"); ("feature.validation_move_account", "true")] |}
           (mkAccount "222222222222" false false)
           {| Data := list_to_map [("root", "ou-pool")] |} true).
  - reflexivity.
  - reflexivity.
  - vm_compute. reflexivity.
  - reflexivity.
  - reflexivity.
  - vm_compute. reflexivity.
Defined.

(** A builder that failed and handed back a nil client. *)
Lemma Reconcile_nil_client_witness :
  Reconcile 1
    {| Get := λ _, inl (mkAccount "111111111111" false false);
       GetOperatorConfigMap := inl {| Data := list_to_map [("root", "ou-pool")] |};
       GetClient := (None, Some (errorString "no credentials"));
       shardName := "shard1" |}
    demoRequest demoState =
  (Panics NilDereference,
   (loadFeatureGates {| Data := list_to_map [("root", "ou-pool")] |} demoState).2) ∧
  calls (loadFeatureGates {| Data := list_to_map [("root", "ou-pool")] |} demoState).2 =
  calls demoState.
Proof.
  apply (Reconcile_nil_client 0
           {| Get := λ _, inl (mkAccount "111111111111" false false);
              GetOperatorConfigMap := inl {| Data := list_to_map [("root", "ou-pool")] |};
              GetClient := (None, Some (errorString "no credentials"));
              shardName := "shard1" |}
           demoRequest (mkAccount "111111111111" false false)
           {| Data := list_to_map [("root", "ou-pool")] |} demoState); reflexivity.
Defined.

(** The same reconciliation with the tagging gate turned on, in the state
    and in the config map. *)
Lemma tagging_gate_without_effect_witness :
  (Reconcile 5
     {| Get := Get (demoReconciler (mkAccount "111111111111" false false)
                      [("root", "ou-pool")]);
        GetOperatorConfigMap :=
          inl {| Data := <["feature.validation_tag_account" := "true"]>
                           (Data {| Data := list_to_map [("root", "ou-pool")] |}) |};
        GetClient := GetClient (demoReconciler (mkAccount "111111111111" false false)
                                  [("root", "ou-pool")]);
        shardName := shardName (demoReconciler (mkAccount "111111111111" false false)
                                  [("root", "ou-pool")]) |}
     demoRequest (setAccountTagEnabled true demoState).2).1 =
  (Reconcile 5 (demoReconciler (mkAccount "111111111111" false false) [("root", "ou-pool")])
     demoRequest demoState).1.
Proof.
  exact (proj1 (tagging_gate_without_effect 5
                  (demoReconciler (mkAccount "111111111111" false false)
                     [("root", "ou-pool")])
                  demoRequest {| Data := list_to_map [("root", "ou-pool")] |} "true" true
                  demoState eq_refl)).
Defined.
